(** * Monte Carlo Tree Search planner and exploration-only bandit baseline

    A shallow embedding of [Assgn3/assignment/mcts.py] (classes [MCTSConfig],
    [Node], [MCTS]) and of
    [Assgn2/Assignement/src/algorithms/exploration_only.py]
    ([ExplorationOnly.select_arm]), with the properties their specification
    states about them, and of the episode loop of
    [Assgn3/assignment/main.py] ([run_mcts]).

    Modelling choices.
    - Python objects of class [Node] live in a store (a list of nodes); a
      reference to a node is its index.  [Node(...)] appends to the store.
      [children] is a Python [dict]: an association list in insertion order.
    - Python [int] is [Z].
    - Python [float] is an abstract type [F] with the operations the code
      uses (class [PyFloat]).  [math.log] and [math.sqrt] raise [ValueError]
      outside their domain; that is written out in [math_log] and
      [math_sqrt].
    - Exceptions are the [Raise] results of type [result].
    - The environment ([gridworld.MDP] and
      [gridworld.sample_next_state_and_reward]) and the random source are
      interfaces of the code: classes [MDP] and [RandomSource]. *)

From stdpp Require Import base numbers option list.

(** ** Exceptions *)

Inductive exn : Type :=
  | ValueError      (* math domain error, numpy's low >= high *)
  | KeyError        (* dict subscript with an absent key *)
  | IndexError      (* rng.choice on an empty sequence *)
  | RuntimeError    (* raise RuntimeError("MCTS on terminal state") *)
  | DanglingRef.    (* a store index outside the store; Python has none *)

Inductive result (A : Type) : Type :=
  | Ok (a : A)
  | Raise (e : exn).
Arguments Ok {A} a.
Arguments Raise {A} e.

#[global] Instance result_bind : MBind result := λ A B k r,
  match r with
  | Ok a => k a
  | Raise e => Raise e
  end.
#[global] Instance result_ret : MRet result := @Ok.

(** ** Interfaces *)

(** Python floats, as far as the planner uses them. *)
Class PyFloat (F : Type) : Type := {
  f_zero : F;                 (* 0.0 *)
  f_one : F;                  (* 1.0 *)
  f_neg_inf : F;              (* float('-inf') *)
  f_of_int : Z → F;           (* float(n), also the implicit conversion *)
  f_add : F → F → F;          (* x + y *)
  f_mul : F → F → F;          (* x * y *)
  f_div : F → F → F;          (* x / y, for y != 0 *)
  f_gt : F → F → bool;        (* x > y *)
  f_ln : Z → F;               (* math.log(n) for an int n >= 1 *)
  f_sqrt : F → F;             (* math.sqrt(x) for x not below zero *)
  f_finite : F → bool;        (* math.isfinite(x) *)
}.

(** gridworld.MDP, of which the planner calls two methods.  The module
    [gridworld] is not among the sources at hand: its interface is a
    parameter of the development. *)
Class MDP (State Action : Type) : Type := {
  actions : State → list Action;
  is_terminal : State → bool;
}.

(** The injected random source: [random.Random(seed)] and the draw under
    [rng.choice(seq)], which is [seq[rng._randbelow(len(seq))]]. *)
Class RandomSource (Rng : Type) : Type := {
  Random : Z → Rng;
  randbelow : nat → Rng → nat * Rng;
}.

(** gridworld.sample_next_state_and_reward(mdp, s, a, rng): one draw of
    ((next_s, reward), rng'). *)
Class Sampler (State Action F Rng : Type) : Type := {
  sample_next_state_and_reward : State → Action → Rng → State * F * Rng;
}.

(** ** Python dictionaries in insertion order *)

Section dict.
Context {K V : Type} `{!EqDecision K}.

(** d[k] *)
Fixpoint dict_get (k : K) (d : list (K * V)) : option V :=
  match d with
  | [] => None
  | (k', v) :: d' => if decide (k = k') then Some v else dict_get k d'
  end.

(** k in d *)
Definition dict_mem (k : K) (d : list (K * V)) : bool :=
  bool_decide (is_Some (dict_get k d)).

(** d[k] = v: a present key keeps its position, a new key goes last. *)
Fixpoint dict_set (k : K) (v : V) (d : list (K * V)) : list (K * V) :=
  match d with
  | [] => [(k, v)]
  | (k', v') :: d' =>
      if decide (k = k') then (k', v) :: d' else (k', v') :: dict_set k v d'
  end.
End dict.

(** ** The planner *)

Section mcts.
Context {State Action F Rng : Type}.
Context `{!EqDecision Action, !PyFloat F, !MDP State Action,
          !RandomSource Rng, !Sampler State Action F Rng}.

(** @dataclass MCTSConfig *)
Record MCTSConfig : Type := {
  gamma : F;
  c_uct : F;
  rollouts : Z;
  max_depth : Z;
}.

(** class Node; [parent] holds the (parent, action) edge, never read. *)
Record Node : Type := {
  state : State;
  parent : option (nat * Action);
  children : list (Action * nat);
  visits : Z;
  value_sum : F;
}.

(** Node.__init__ *)
Definition new_node (s : State) (p : option (nat * Action)) : Node :=
  {| state := s; parent := p; children := []; visits := 0;
     value_sum := f_zero |}.

(** Node.q: the division is guarded by [visits == 0]. *)
Definition q (n : Node) : F :=
  if (visits n =? 0)%Z then f_zero
  else f_div (value_sum n) (f_of_int (visits n)).


(** The store of [Node] objects. *)
Local Abbreviation store := (list Node).

Definition deref (st : store) (i : nat) : result Node :=
  match st !! i with
  | Some n => Ok n
  | None => Raise DanglingRef
  end.

(** math.log(n) on an int, math.sqrt(x) on a float *)
Definition math_log (n : Z) : result F :=
  if (n <=? 0)%Z then Raise ValueError else Ok (f_ln n).

Definition math_sqrt (x : F) : result F :=
  if f_gt f_zero x then Raise ValueError else Ok (f_sqrt x).

(** rng.choice(seq) *)
Definition choice {A : Type} (l : list A) (g : Rng) : result (A * Rng) :=
  match l with
  | [] => Raise IndexError
  | _ :: _ =>
      let '(i, g') := randbelow (length l) g in
      match l !! i with
      | Some a => Ok (a, g')
      | None => Raise IndexError
      end
  end.
#[global] Arguments choice : simpl never.

Variable cfg : MCTSConfig.

(** MCTS._select_uct: the loop over [node.children.items()], with
    [best_action] (None at first) and [best_score] (-inf at first).  The
    division by [child.visits] comes after the [child.visits == 0] exit. *)
Fixpoint select_uct_loop (st : store) (N : Z) (items : list (Action * nat))
    (best_action : option Action) (best_score : F)
    : result (option Action) :=
  match items with
  | [] => Ok best_action
  | (action, cid) :: rest =>
      child ← deref st cid;
      if (visits child =? 0)%Z then Ok (Some action)
      else
        let exploit := q child in
        lg ← math_log N;
        rt ← math_sqrt (f_div lg (f_of_int (visits child)));
        let explore := f_mul (c_uct cfg) rt in
        let score := f_add exploit explore in
        if f_gt score best_score
        then select_uct_loop st N rest (Some action) score
        else select_uct_loop st N rest best_action best_score
  end.

Definition select_uct (st : store) (node : Node) : result (option Action) :=
  select_uct_loop st (visits node) (children node) None f_neg_inf.

(** MCTS._rollout: the while loop runs at most [max_depth - depth] times,
    which is the fuel [rollout] gives it. *)
Fixpoint rollout_loop (fuel : nat) (s : State) (depth : Z)
    (total_return discount : F) (g : Rng) : result (F * Rng) :=
  match fuel with
  | O => Ok (total_return, g)
  | S fuel' =>
      if negb (is_terminal s) && (depth <? max_depth cfg)%Z then
        let acts := actions s in
        match acts with
        | [] => Ok (total_return, g)
        | _ :: _ =>
            '(action, g1) ← choice acts g;
            let '(next_s, reward, g2) :=
              sample_next_state_and_reward s action g1 in
            rollout_loop fuel' next_s (depth + 1)%Z
              (f_add total_return (f_mul discount reward))
              (f_mul discount (gamma cfg)) g2
        end
      else Ok (total_return, g)
  end.

Definition rollout (s : State) (depth : Z) (g : Rng) : result (F * Rng) :=
  rollout_loop (Z.to_nat (max_depth cfg - depth)) s depth f_zero f_one g.

(** The local variables of one iteration of [search] after a phase. *)
Record frame : Type := {
  fr_store : store;
  fr_rng : Rng;
  fr_node : nat;
  fr_path : list nat;
  fr_depth : Z;
}.

(** Selection (mcts.py 51-56): the while loop, at most [max_depth] times. *)
Fixpoint select_loop (fuel : nat) (st : store) (node : nat)
    (path : list nat) (depth : Z) : result (nat * list nat * Z) :=
  match fuel with
  | O => Ok (node, path, depth)
  | S fuel' =>
      nd ← deref st node;
      if negb (bool_decide (children nd = []))
         && negb (is_terminal (state nd)) && (depth <? max_depth cfg)%Z
      then
        oa ← select_uct st nd;
        match oa ≫= λ a, dict_get a (children nd) with
        | None => Raise KeyError
        | Some cid => select_loop fuel' st cid (path ++ [cid]) (depth + 1)%Z
        end
      else Ok (node, path, depth)
  end.

(** node.children[action] = child *)
Definition set_child (action : Action) (cid : nat) (nd : Node) : Node :=
  {| state := state nd; parent := parent nd;
     children := dict_set action cid (children nd);
     visits := visits nd; value_sum := value_sum nd |}.

(** n.visits += 1; n.value_sum += value *)
Definition bump (value : F) (nd : Node) : Node :=
  {| state := state nd; parent := parent nd; children := children nd;
     visits := (visits nd + 1)%Z;
     value_sum := f_add (value_sum nd) value |}.

(** Expansion (mcts.py 59-71). *)
Definition expand (st : store) (g : Rng) (node : nat) (path : list nat)
    (depth : Z) : result frame :=
  let same := {| fr_store := st; fr_rng := g; fr_node := node;
                 fr_path := path; fr_depth := depth |} in
  nd ← deref st node;
  if negb (is_terminal (state nd)) && (depth <? max_depth cfg)%Z then
    let acts := actions (state nd) in
    match acts with
    | [] => Ok same
    | _ :: _ =>
        let unexplored :=
          filter (λ a, dict_mem a (children nd) = false) acts in
        match unexplored with
        | [] => Ok same
        | _ :: _ =>
            '(action, g1) ← choice unexplored g;
            let '(next_s, _, g2) :=
              sample_next_state_and_reward (state nd) action g1 in
            let child := new_node next_s (Some (node, action)) in
            let cid := length st in
            Ok {| fr_store :=
                    <[node := set_child action cid nd]> (st ++ [child]);
                  fr_rng := g2; fr_node := cid;
                  fr_path := path ++ [cid]; fr_depth := (depth + 1)%Z |}
        end
    end
  else Ok same.

(** Backpropagation (mcts.py 77-79). *)
Fixpoint backprop (st : store) (path : list nat) (value : F)
    : result store :=
  match path with
  | [] => Ok st
  | n :: rest =>
      nd ← deref st n;
      backprop (<[n := bump value nd]> st) rest value
  end.

(** The body of the for loop of [search]; the root is node 0. *)
Definition iteration (st : store) (g : Rng) : result (store * Rng) :=
  '(node, path, depth) ← select_loop (Z.to_nat (max_depth cfg)) st 0 [0] 0%Z;
  fr ← expand st g node path depth;
  nd ← deref (fr_store fr) (fr_node fr);
  '(value, g') ← rollout (state nd) (fr_depth fr) (fr_rng fr);
  st' ← backprop (fr_store fr) (fr_path fr) value;
  Ok (st', g').

(** for _ in range(k) *)
Fixpoint search_loop (k : nat) (st : store) (g : Rng)
    : result (store * Rng) :=
  match k with
  | O => Ok (st, g)
  | S k' => '(st', g') ← iteration st g; search_loop k' st' g'
  end.

(** The tree [search] has built when its for loop ends. *)
Definition search_tree (root_state : State) (g : Rng)
    : result (store * Rng) :=
  search_loop (Z.to_nat (rollouts cfg)) [new_node root_state None] g.

(** Action extraction (mcts.py 82-87): [best_a], [best_v] over
    [root.children.items()]. *)
Fixpoint most_visited (st : store) (items : list (Action * nat))
    (best_a : option Action) (best_v : Z) : result (option Action) :=
  match items with
  | [] => Ok best_a
  | (a, cid) :: rest =>
      ch ← deref st cid;
      if (best_v <? visits ch)%Z
      then most_visited st rest (Some a) (visits ch)
      else most_visited st rest best_a best_v
  end.

(** mcts.py 82-93 on the finished tree. *)
Definition extract_action (st : store) (root_state : State)
    : result Action :=
  root ← deref st 0;
  best_a ← most_visited st (children root) None (-1)%Z;
  match best_a with
  | Some a => Ok a
  | None =>
      match actions root_state with
      | [] => Raise RuntimeError
      | a :: _ => Ok a
      end
  end.

(** MCTS.search, with the random source it leaves behind. *)
Definition search (root_state : State) (g : Rng) : result (Action * Rng) :=
  '(st, g') ← search_tree root_state g;
  a ← extract_action st root_state;
  Ok (a, g').

(** *** The MCTS object *)

(** The attributes of an [MCTS] instance that [search] reads: [self.cfg]
    and [self.rng]; [self.mdp] is the [MDP] instance of this section, and
    [self.heuristic] is stored and never read. *)
Record MCTS : Type := {
  mcts_cfg : MCTSConfig;
  mcts_rng : Rng;
}.

(** MCTS.__init__(mdp, cfg, rng=None): no rng gives [random.Random(0)]. *)
Definition MCTS_init (c : MCTSConfig) (rng : option Rng) : MCTS :=
  {| mcts_cfg := c;
     mcts_rng := match rng with Some g => g | None => Random 0 end |}.

(** Constructing a configuration and a planner, as a call that could
    raise: neither [MCTSConfig] (a plain dataclass) nor [MCTS.__init__]
    has a raise statement. *)
Definition construct (gamma0 c_uct0 : F) (rollouts0 max_depth0 : Z)
    (rng : option Rng) : result MCTS :=
  Ok (MCTS_init {| gamma := gamma0; c_uct := c_uct0;
                   rollouts := rollouts0; max_depth := max_depth0 |} rng).

(** *** Definitions the statements use *)

(** The i-th entry of [node.children.items()], with the child looked up. *)
Definition child_at (st : store) (node : Node) (i : nat)
    : option (Action * Node) :=
  '(a, cid) ← children node !! i; c ← st !! cid; Some (a, c).

(** The score that [_select_uct] computes for a visited child
    (mcts.py 105-107): child.q + c_uct * sqrt(ln(N) / child.visits). *)
Definition uct_score (N : Z) (c : Node) : F :=
  f_add (q c)
    (f_mul (c_uct cfg)
       (f_sqrt (f_div (f_ln N) (f_of_int (visits c))))).

(** The loop of [_select_uct] over already computed scores. *)
Fixpoint argmax_loop (items : list (Action * F))
    (best_action : option Action) (best_score : F) : option Action :=
  match items with
  | [] => best_action
  | (action, score) :: rest =>
      if f_gt score best_score then argmax_loop rest (Some action) score
      else argmax_loop rest best_action best_score
  end.

(** What [argmax_loop] keeps between steps: nothing seen yet, or the
    best entry seen, which no entry beats and which beats every entry
    before it. *)
Definition best_so_far (seen : list (Action * F))
    (ba : option Action) (bs : F) : Prop :=
  match ba with
  | None => seen = [] ∧ bs = f_neg_inf
  | Some a =>
      ∃ i, seen !! i = Some (a, bs) ∧
        ∀ j a' s', seen !! j = Some (a', s') →
          f_gt s' bs = false ∧ (j < i → f_gt bs s' = true)
  end.

(** The rewards a rollout collects, in order: the sampling of
    [rollout_loop] without the accumulation. *)
Fixpoint rollout_rewards (fuel : nat) (s : State) (depth : Z) (g : Rng)
    : result (list F * Rng) :=
  match fuel with
  | O => Ok ([], g)
  | S fuel' =>
      if is_terminal s || (max_depth cfg <=? depth)%Z then Ok ([], g)
      else
        match actions s with
        | [] => Ok ([], g)
        | acts =>
            '(action, g1) ← choice acts g;
            let '(next_s, reward, g2) :=
              sample_next_state_and_reward s action g1 in
            '(rs, g3) ← rollout_rewards fuel' next_s (depth + 1)%Z g2;
            Ok (reward :: rs, g3)
        end
  end.

(** return += discount * reward; discount *= gamma *)
Definition accumulate (acc : F * F) (reward : F) : F * F :=
  (f_add acc.1 (f_mul acc.2 reward), f_mul acc.2 (gamma cfg)).

(** What the specification asks of a configuration: positive [rollouts]
    and [max_depth], [gamma] in (0, 1], [c_uct] not negative. *)
Definition config_valid (c : MCTSConfig) : bool :=
  (0 <? rollouts c)%Z && (0 <? max_depth c)%Z
  && f_gt (gamma c) f_zero && negb (f_gt (gamma c) f_one)
  && negb (f_gt f_zero (c_uct c)).

(** The fallback of action extraction: the first action enumerable at
    the root state, or the error when there is none. *)
Definition fallback (root_state : State) : result Action :=
  match actions root_state with
  | [] => Raise RuntimeError
  | a :: _ => Ok a
  end.

(** No child can be added below a state that is terminal or has no
    action, or when [max_depth] leaves no room. *)
Definition stuck (s : State) : Prop :=
  is_terminal s = true ∨ actions s = [] ∨ (max_depth cfg ≤ 0)%Z.

(** The invariant of the tree.  Between two iterations of [search] it
    holds with no pending node ([wf]); inside an iteration the nodes of
    [pending], the path still to be backpropagated, may have a child
    before their first visit. *)
Record tree_inv (pending : list nat) (st : store) : Prop := {
  inv_root : is_Some (st !! 0);
  inv_children i nd a c :
    st !! i = Some nd → (a, c) ∈ children nd →
    i < c < length st ∧ a ∈ actions (state nd);
  inv_visits i nd :
    st !! i = Some nd →
    (0 ≤ visits nd)%Z ∧
    (children nd ≠ [] → (1 ≤ visits nd)%Z ∨ i ∈ pending);
  inv_finite i nd : st !! i = Some nd → f_finite (value_sum nd) = true;
}.

Definition wf (st : store) : Prop := tree_inv [] st.

(** The path of an iteration while it descends: it starts at the root,
    goes strictly downwards in the store and ends at [node]. *)
Definition path_ok (st : store) (node : nat) (path : list nat) : Prop :=
  NoDup path ∧ 0 ∈ path ∧ node ∈ path ∧
  (∀ i, i ∈ path → i ≤ node) ∧ node < length st.

(** The trees and random sources at the start of an iteration of
    [search root_state]. *)
Inductive reachable (root_state : State) (g0 : Rng) : store → Rng → Prop :=
  | reach_init : reachable root_state g0 [new_node root_state None] g0
  | reach_step st g st' g' :
      reachable root_state g0 st g →
      iteration st g = Ok (st', g') →
      reachable root_state g0 st' g'.

End mcts.

(** MCTS.search as a method: it leaves the advanced random source in
    [self.rng]. *)
Definition MCTS_search {State Action F Rng : Type}
    `{!EqDecision Action, !PyFloat F, !MDP State Action,
      !RandomSource Rng, !Sampler State Action F Rng}
    (self : MCTS) (root_state : State) : result (Action * MCTS) :=
  '(a, g') ← search (mcts_cfg self) root_state (mcts_rng self);
  Ok (a, {| mcts_cfg := mcts_cfg self; mcts_rng := g' |}).

(** ** The exploration-only bandit *)

(** numpy's global random state; [np_bounded n] draws from [0, n). *)
Class NumpyRandom (NpState : Type) : Type := {
  np_bounded : Z → NpState → Z * NpState;
}.

Class NumpyRandomOk (NpState : Type) `{!NumpyRandom NpState} : Prop := {
  np_bounded_range n g : (0 < n)%Z → (0 ≤ (np_bounded n g).1 < n)%Z;
}.

Section bandit.
Context {NpState : Type} `{!NumpyRandom NpState}.

(** The bounds of numpy's default integer dtype, int64: -2^63 and
    2^63 - 1. *)
Definition int64_min : Z := (-9223372036854775808)%Z.
Definition int64_max : Z := 9223372036854775807%Z.

(** np.random.randint(low, high) with the default dtype: an integer from
    [low] (inclusive) to [high] (exclusive).  It raises [ValueError] when
    [low] is below the int64 range or [high - 1] is above it (low/high is
    out of bounds for int64), and when [low >= high]. *)
Definition np_random_randint (low high : Z) (g : NpState)
    : result (Z * NpState) :=
  if (low <? int64_min)%Z || (int64_max + 1 <? high)%Z then Raise ValueError
  else if (high <=? low)%Z then Raise ValueError
  else let '(r, g') := np_bounded (high - low) g in Ok ((low + r)%Z, g').

(** The attribute that [select_arm] reads; [BaseMABAlgorithm.__init__],
    not among the sources at hand, is given [n_arms]. *)
Record ExplorationOnly : Type := { n_arms : Z }.

(** ExplorationOnly.select_arm *)
Definition select_arm (self : ExplorationOnly) (g : NpState)
    : result (Z * NpState) :=
  np_random_randint 0 (n_arms self) g.
End bandit.

(** ** The selection rule, in the words of the specification *)

Section selection_spec.
Context {State Action F : Type} `{!PyFloat F}.

(** mean_value = value_sum / visit_count, defined as 0 when visit_count
    is 0. *)
Definition mean_value (c : @Node State Action F) : F :=
  if decide (visits c = 0%Z) then f_zero
  else f_div (value_sum c) (f_of_int (visits c)).

(** mean_value(c) + c_uct * sqrt(ln(N) / n_c) *)
Definition spec_uct_score (c_uct0 : F) (N : Z) (c : @Node State Action F)
    : F :=
  f_add (mean_value c)
    (f_mul c_uct0 (f_sqrt (f_div (f_ln N) (f_of_int (visits c))))).
End selection_spec.

(** ** The shape of the tree, and the driver *)

Section shape.
Context {State Action F Rng : Type}.
Context `{!EqDecision Action, !PyFloat F, !MDP State Action,
          !RandomSource Rng, !Sampler State Action F Rng}.
Variable cfg : @MCTSConfig F.

(** What [search] keeps of its tree: the nodes form one chain in the order
    of their creation.  Node [i] has the single child [i + 1], stored under
    the action that the child's [parent] edge names; the last node has no
    child; a child was visited at most as often as its parent, and at least
    once; there are at most [max_depth + 1] nodes.  Inside an iteration the
    first [pending] nodes are the path still to be backpropagated, and the
    last of them may be new and not visited yet. *)
Record chain_at (pending : nat) (st : list (@Node State Action F))
    : Prop := {
  ch_root : ∃ root, st !! 0 = Some root ∧ parent root = None ∧
                    (0 ≤ visits root)%Z;
  ch_link i nd :
    st !! i = Some nd → S i < length st →
    ∃ a nd', children nd = [(a, S i)] ∧ a ∈ actions (state nd) ∧
             st !! S i = Some nd' ∧ parent nd' = Some (i, a) ∧
             (visits nd' ≤ visits nd)%Z ∧
             ((1 ≤ visits nd')%Z ∨ (visits nd' = 0%Z ∧ S i < pending));
  ch_last i nd : st !! i = Some nd → S i = length st → children nd = [];
  ch_size : (Z.of_nat (length st) ≤ Z.max 1 (max_depth cfg + 1))%Z;
}.

Definition chain_inv (st : list (@Node State Action F)) : Prop :=
  chain_at 0 st.
End shape.

(** MDP.initial_state(), which only the driver calls. *)
Class InitialState (State : Type) : Type := {
  initial_state : State;
}.

Section driver.
Context {State Action F Rng : Type}.
Context `{!EqDecision Action, !PyFloat F, !MDP State Action,
          !RandomSource Rng, !Sampler State Action F Rng,
          !InitialState State}.

(** What an episode of [run_mcts] has when its while loop ends: the state,
    [steps], [total_reward], and the planner and the driver's own random
    source as the episode leaves them. *)
Record outcome : Type := {
  out_state : State;
  out_steps : Z;
  out_total : F;
  out_agent : @MCTS F Rng;
  out_rng : Rng;
}.

(** main.py 42-50: the while loop of one episode; it runs at most
    [max_steps - steps] times. *)
Fixpoint episode_loop (fuel : nat) (max_steps : Z) (agent : @MCTS F Rng)
    (rng : Rng) (s : State) (steps : Z) (total_reward : F)
    : result outcome :=
  let here := {| out_state := s; out_steps := steps;
                 out_total := total_reward; out_agent := agent;
                 out_rng := rng |} in
  match fuel with
  | O => Ok here
  | S fuel' =>
      if negb (is_terminal s) && (steps <? max_steps)%Z then
        '(a, agent') ← MCTS_search agent s;
        let '(next_s, reward, rng') :=
          sample_next_state_and_reward s a rng in
        episode_loop fuel' max_steps agent' rng' next_s (steps + 1)%Z
          (f_add total_reward reward)
      else Ok here
  end.

(** main.py 37-50: one episode from the initial state. *)
Definition episode (max_steps : Z) (agent : @MCTS F Rng) (rng : Rng)
    : result outcome :=
  episode_loop (Z.to_nat max_steps) max_steps agent rng
    initial_state 0%Z f_zero.

(** main.py 36-52: [for ep in range(n)]; each episode goes on with the
    planner and the random source the one before left, and contributes the
    (steps, total_reward) that the print statement formats. *)
Fixpoint episodes (n : nat) (max_steps : Z) (agent : @MCTS F Rng)
    (rng : Rng) : result (list (Z * F)) :=
  match n with
  | O => Ok []
  | S n' =>
      out ← episode max_steps agent rng;
      rest ← episodes n' max_steps (out_agent out) (out_rng out);
      Ok ((out_steps out, out_total out) :: rest)
  end.

(** main.run_mcts, as the list of what it prints per episode.  [gamma0]
    and [c_uct0] stand for the floats 0.95 and 1.4; the environment of
    [make_default_grid()] is the [MDP] instance. *)
Definition run_mcts (gamma0 c_uct0 : F) : result (list (Z * F)) :=
  let cfg := {| gamma := gamma0; c_uct := c_uct0; rollouts := 200;
                max_depth := 200 |} in
  let agent := MCTS_init cfg None in
  let rng := Random 0 in
  episodes 20 1000 agent rng.
End driver.

(** ** Assumptions on the interfaces

    The planner's results are stated for arithmetic that stays finite: no
    overflow to an infinity and no NaN.  [IdealFloat] says so for the
    operations of [PyFloat], and that [>] orders the finite values. *)

Class IdealFloat (F : Type) `{!PyFloat F} : Prop := {
  finite_zero : f_finite f_zero = true;
  finite_one : f_finite f_one = true;
  finite_add x y :
    f_finite x = true → f_finite y = true → f_finite (f_add x y) = true;
  finite_mul x y :
    f_finite x = true → f_finite y = true → f_finite (f_mul x y) = true;
  finite_div_int x n :
    f_finite x = true → n ≠ 0%Z → f_finite (f_div x (f_of_int n)) = true;
  finite_ln n : (1 ≤ n)%Z → f_finite (f_ln n) = true;
  finite_sqrt x :
    f_finite x = true → f_gt f_zero x = false → f_finite (f_sqrt x) = true;
  ln_ratio_not_negative N n :
    (1 ≤ N)%Z → (1 ≤ n)%Z →
    f_gt f_zero (f_div (f_ln N) (f_of_int n)) = false;
  gt_neg_inf x : f_finite x = true → f_gt x f_neg_inf = true;
  gt_asym x y :
    f_finite x = true → f_finite y = true →
    f_gt x y = true → f_gt y x = false;
  gt_cotrans x y z :
    f_finite x = true → f_finite y = true → f_finite z = true →
    f_gt x y = true → f_gt x z = true ∨ f_gt z y = true;
}.

(** [rng._randbelow(n)] is below [n]. *)
Class RandomSourceOk (Rng : Type) `{!RandomSource Rng} : Prop := {
  randbelow_lt n g : 0 < n → (randbelow n g).1 < n;
}.

(** The environment hands out finite rewards. *)
Class FiniteRewards (State Action F Rng : Type)
    `{!PyFloat F, !Sampler State Action F Rng} : Prop := {
  reward_finite (s : State) (a : Action) (g : Rng) :
    f_finite (sample_next_state_and_reward s a g).1.2 = true;
}.

(** ** A small environment to run the planner on

    A walk on the naturals: two actions everywhere (also at terminal
    states), states from 3 on are terminal.  Numbers are thousandths in
    [Z], with one extra value for minus infinity. *)

Module Toy.
Inductive num : Type := NegInf | Fin (z : Z).

Definition num_gt (x y : num) : bool :=
  match x, y with
  | Fin a, Fin b => (b <? a)%Z
  | Fin _, NegInf => true
  | NegInf, _ => false
  end.

Definition num_lift2 (f : Z → Z → Z) (x y : num) : num :=
  match x, y with
  | Fin a, Fin b => Fin (f a b)
  | _, _ => NegInf
  end.

#[export] Instance num_float : PyFloat num := {|
  f_zero := Fin 0;
  f_one := Fin 1000;
  f_neg_inf := NegInf;
  f_of_int n := Fin (1000 * n);
  f_add := num_lift2 Z.add;
  f_mul := num_lift2 (λ a b, a * b / 1000)%Z;
  f_div := num_lift2 (λ a b, a * 1000 / b)%Z;
  f_gt := num_gt;
  f_ln n := Fin (693 * Z.log2 n);
  f_sqrt x :=
    match x with Fin a => Fin (Z.sqrt (a * 1000)) | NegInf => NegInf end;
  f_finite x := match x with Fin _ => true | NegInf => false end;
|}.

(** A linear congruential generator on 0..15. *)
#[export] Instance lcg : RandomSource nat := {|
  Random seed := Z.to_nat seed;
  randbelow n g := (g `mod` n, (5 * g + 3) `mod` 16);
|}.

#[export] Instance walk : MDP nat bool := {|
  actions s := [true; false];
  is_terminal s := bool_decide (3 ≤ s);
|}.

#[export] Instance walk_sampler : Sampler nat bool num nat := {|
  sample_next_state_and_reward s a g :=
    (if a : bool then s + 1 else s + 2,
     if a then Fin 10000 else Fin 0,
     (7 * g + 1) `mod` 16);
|}.

Definition cfg : @MCTSConfig num :=
  {| gamma := Fin 950; c_uct := Fin 1400; rollouts := 6; max_depth := 5 |}.

(** A parent visited 4 times and its two children: once both visited
    with equal scores, once with the second one unvisited. *)
Definition dad : @Node nat bool num :=
  {| state := 0; parent := None; children := [(true, 1); (false, 2)];
     visits := 4; value_sum := Fin 0 |}.

Definition kid (visits0 sum : Z) : @Node nat bool num :=
  {| state := 1; parent := None; children := []; visits := visits0;
     value_sum := Fin sum |}.

Definition family : list (@Node nat bool num) :=
  [dad; kid 2 4000; kid 2 4000].

Definition family_unvisited : list (@Node nat bool num) :=
  [dad; kid 4 4000; kid 0 0].

(** The tree after the first iteration of [search] from state 0 with the
    generator in state 0. *)
Definition tree1 : list (@Node nat bool num) :=
  [ {| state := 0; parent := None; children := [(true, 1)]; visits := 1;
       value_sum := Fin 19500 |};
    {| state := 1; parent := Some (0, true); children := []; visits := 1;
       value_sum := Fin 19500 |} ].

(** A configuration that breaks every constraint of the specification:
    gamma = 2.0, c_uct = -1.0, no rollouts, no depth. *)
Definition bad_cfg : @MCTSConfig num :=
  {| gamma := Fin 2000; c_uct := Fin (-1000); rollouts := 0;
     max_depth := 0 |}.

(** A sampler whose rewards are minus infinity. *)
Definition abyss : Sampler nat bool num nat :=
  {| sample_next_state_and_reward s a g := (s + 1, NegInf, g) |}.

(** An environment without any action. *)
Definition dead_end : MDP nat bool :=
  {| actions s := []; is_terminal s := false |}.

(** numpy's generator, as a counter. *)
#[export] Instance counter : NumpyRandom nat := {|
  np_bounded n g := (Z.of_nat g `mod` n, S g)%Z;
|}.
End Toy.

(** The walk starts at 0. *)
Module Demo.
#[export] Instance walk_start : InitialState nat := {| initial_state := 0 |}.
End Demo.

(** Inputs at the edges: children whose value sums are minus infinity, a
    negative budget, and the walk with rewards of minus infinity. *)
Module Edge.
Import Toy.

Definition lost : @Node nat bool num :=
  {| state := 1; parent := None; children := []; visits := 2;
     value_sum := NegInf |}.

Definition family_lost : list (@Node nat bool num) := [dad; lost; lost].

Definition negative_budget : @MCTSConfig num :=
  {| gamma := Fin 950; c_uct := Fin 1400; rollouts := -3; max_depth := 5 |}.
End Edge.

(** * Properties *)

(** ** Dictionaries *)

Section dict_facts.
Context {K V : Type} `{!EqDecision K}.
Implicit Types (d : list (K * V)) (k : K) (v : V).

Lemma dict_get_Some_elem k v d : dict_get k d = Some v → (k, v) ∈ d.
Proof.
  induction d as [|[k' v'] d IH]; simpl; [done|].
  case_decide as Hk.
  - intros [= ->]. subst k'. apply list_elem_of_here.
  - intros Hd. apply list_elem_of_further, IH, Hd.
Qed.

Lemma dict_get_is_Some k d : k ∈ d.*1 → is_Some (dict_get k d).
Proof.
  induction d as [|[k' v'] d IH]; simpl.
  - by intros ?%elem_of_nil.
  - intros [->|Hin]%elem_of_cons; case_decide; eauto; done.
Qed.

Lemma dict_mem_false k d : dict_mem k d = false ↔ k ∉ d.*1.
Proof.
  unfold dict_mem. rewrite bool_decide_eq_false. split.
  - intros Hn Hin. by apply Hn, dict_get_is_Some.
  - intros Hn [v Hv]. apply Hn. apply dict_get_Some_elem in Hv.
    apply list_elem_of_fmap. by exists (k, v).
Qed.

Lemma elem_of_dict_set k v d k' v' :
  (k', v') ∈ dict_set k v d → (k', v') ∈ d ∨ (k' = k ∧ v' = v).
Proof.
  induction d as [|[k0 v0] d IH]; simpl.
  - intros [= -> ->]%list_elem_of_singleton. by right.
  - case_decide as Hk.
    + intros [[= -> ->]|Hin]%elem_of_cons; [by right|].
      left. by apply list_elem_of_further.
    + intros [[= -> ->]|Hin]%elem_of_cons; [left; apply list_elem_of_here|].
      destruct (IH Hin) as [?|?]; [left|by right].
      by apply list_elem_of_further.
Qed.

End dict_facts.

(** ** The store *)

Section store_facts.
Context {State Action F Rng : Type}.
Context `{!EqDecision Action, !PyFloat F, !MDP State Action,
          !RandomSource Rng, !Sampler State Action F Rng}.
Local Abbreviation store := (list (@Node State Action F)).
Implicit Types (st : store) (nd : @Node State Action F).
Implicit Types (path : list nat) (v : F).

Lemma deref_Ok st i nd : deref st i = Ok nd ↔ st !! i = Some nd.
Proof.
  unfold deref. destruct (st !! i) as [n|]; split; intros H; try done.
  - by injection H as [= ->].
  - by injection H as [= ->].
Qed.

Lemma deref_lt st i : i < length st → ∃ nd, deref st i = Ok nd.
Proof.
  intros [nd Hnd]%lookup_lt_is_Some_2. exists nd. by apply deref_Ok.
Qed.

(** Backpropagation over a path without repetition bumps exactly the
    nodes of the path, once each. *)
Lemma backprop_spec st path v :
  NoDup path → (∀ i, i ∈ path → i < length st) →
  ∃ st', backprop st path v = Ok st' ∧ length st' = length st ∧
    ∀ i, st' !! i = if decide (i ∈ path) then (bump v <$> st !! i)
                    else st !! i.
Proof.
  revert st. induction path as [|n rest IH]; intros st Hnd Hlt.
  - exists st. split_and!; [done..|]. intros i.
    case_decide as Hi; [by apply elem_of_nil in Hi | done].
  - apply NoDup_cons in Hnd as [Hn Hnd].
    destruct (deref_lt st n) as [nd Hd]; [apply Hlt; left|].
    destruct (IH (<[n := bump v nd]> st) Hnd) as (st' & Hb & Hlen & Hst').
    { intros i Hi. rewrite length_insert. apply Hlt. by right. }
    exists st'. simpl. rewrite Hd. simpl. split_and!; [done| |].
    { by rewrite Hlen, length_insert. }
    intros i. rewrite Hst'. apply deref_Ok in Hd.
    destruct (decide (i = n)) as [->|Hne].
    + rewrite decide_False by done. rewrite decide_True by left.
      rewrite list_lookup_insert_eq by (by eapply lookup_lt_Some).
      by rewrite Hd.
    + rewrite list_lookup_insert_ne by done.
      destruct (decide (i ∈ rest)) as [Hi|Hi].
      * by rewrite decide_True by (by right).
      * rewrite decide_False; [done|].
        by intros [?|?]%elem_of_cons.
Qed.
End store_facts.

(** ** UCT selection *)

Section uct_facts.
Context {State Action F Rng : Type}.
Context `{!EqDecision Action, !PyFloat F, !MDP State Action,
          !RandomSource Rng, !Sampler State Action F Rng}.
Context `{!IdealFloat F}.
Variable cfg : @MCTSConfig F.
Local Abbreviation store := (list (@Node State Action F)).
Implicit Types (st : store) (nd c : @Node State Action F).
Implicit Types (items : list (Action * nat)) (N : Z).

(** With a visited parent and a visited child the score is computed
    without a domain error, and it is the score of the specification. *)
Lemma select_uct_loop_visited st N a cid c rest ba bs :
  (1 ≤ N)%Z → st !! cid = Some c → (0 < visits c)%Z →
  select_uct_loop cfg st N ((a, cid) :: rest) ba bs =
    if f_gt (uct_score cfg N c) bs
    then select_uct_loop cfg st N rest (Some a) (uct_score cfg N c)
    else select_uct_loop cfg st N rest ba bs.
Proof.
  intros HN Hc Hv. simpl. unfold deref. rewrite Hc. simpl.
  destruct (Z.eqb_spec (visits c) 0) as [?|_]; [lia|].
  unfold math_log. destruct (Z.leb_spec N 0) as [?|_]; [lia|]. simpl.
  unfold math_sqrt. rewrite ln_ratio_not_negative by lia. simpl.
  reflexivity.
Qed.

(** An unvisited child ends the loop at once. *)
Lemma select_uct_loop_unvisited st N a cid c rest ba bs :
  st !! cid = Some c → visits c = 0%Z →
  select_uct_loop cfg st N ((a, cid) :: rest) ba bs = Ok (Some a).
Proof.
  intros Hc Hv. simpl. unfold deref. rewrite Hc. simpl. by rewrite Hv.
Qed.

Lemma uct_score_finite N c :
  (1 ≤ N)%Z → (0 < visits c)%Z → f_finite (value_sum c) = true →
  f_finite (c_uct cfg) = true → f_finite (uct_score cfg N c) = true.
Proof.
  intros HN Hv Hsum Hc. unfold uct_score, q.
  destruct (Z.eqb_spec (visits c) 0) as [?|_]; [lia|].
  apply finite_add; [apply finite_div_int; [done|lia]|].
  apply finite_mul; [done|].
  apply finite_sqrt; [|apply ln_ratio_not_negative; lia].
  apply finite_div_int; [apply finite_ln; lia | lia].
Qed.

Lemma child_at_Some st nd i a c :
  child_at st nd i = Some (a, c) ↔
  ∃ cid, children nd !! i = Some (a, cid) ∧ st !! cid = Some c.
Proof.
  unfold child_at. split.
  - destruct (children nd !! i) as [[a' cid]|]; simpl; [|done].
    destruct (st !! cid) as [c'|] eqn:Hc; simpl; [|done].
    intros [= -> ->]. by exists cid.
  - intros (cid & -> & Hc). simpl. by rewrite Hc.
Qed.

End uct_facts.

(** ** One iteration of search *)

Section search_facts.
Context {State Action F Rng : Type}.
Context `{!EqDecision Action, !PyFloat F, !MDP State Action,
          !RandomSource Rng, !Sampler State Action F Rng}.
Context `{!IdealFloat F, !RandomSourceOk Rng,
          !FiniteRewards State Action F Rng}.
Variable cfg : @MCTSConfig F.
Hypothesis gamma_finite : f_finite (gamma cfg) = true.
Hypothesis c_uct_finite : f_finite (c_uct cfg) = true.
Local Abbreviation store := (list (@Node State Action F)).
Implicit Types (st : store) (nd c : @Node State Action F).
Implicit Types (items : list (Action * nat)) (path : list nat) (g : Rng).

Lemma choice_Ok {A : Type} (l : list A) g :
  l ≠ [] → ∃ a g', choice l g = Ok (a, g') ∧ a ∈ l.
Proof.
  intros Hl. unfold choice. destruct l as [|x l]; [done|].
  pose proof (randbelow_lt (length (x :: l)) g) as Hlt.
  destruct (randbelow (length (x :: l)) g) as [i g'].
  destruct (lookup_lt_is_Some_2 (x :: l) i) as [a Ha].
  { apply Hlt. simpl. lia. }
  exists a, g'. rewrite Ha. split; [done|]. by eapply list_elem_of_lookup_2.
Qed.

(** The rollout returns, with a finite value. *)
Lemma rollout_loop_Ok fuel s depth total discount g :
  f_finite total = true → f_finite discount = true →
  ∃ v g', rollout_loop cfg fuel s depth total discount g = Ok (v, g') ∧
          f_finite v = true.
Proof.
  revert s depth total discount g.
  induction fuel as [|fuel IH]; intros s depth total discount g Ht Hd;
    simpl; [by eauto|].
  destruct (negb (is_terminal s) && (depth <? max_depth cfg)%Z);
    [|by eauto].
  destruct (actions s) as [|a0 acts] eqn:Hacts; [by eauto|].
  destruct (choice_Ok (a0 :: acts) g) as (a & g1 & -> & _); [done|].
  simpl. pose proof (reward_finite s a g1) as Hr.
  destruct (sample_next_state_and_reward s a g1) as [[next_s reward] g2].
  simpl in Hr. apply IH.
  - apply finite_add; [done|]. by apply finite_mul.
  - by apply finite_mul.
Qed.

Lemma rollout_Ok s depth g :
  ∃ v g', rollout cfg s depth g = Ok (v, g') ∧ f_finite v = true.
Proof.
  apply rollout_loop_Ok; [apply finite_zero | apply finite_one].
Qed.

(** On children that exist, were visited a non-negative number of times
    and hold finite sums, the loop of [_select_uct] returns the best
    action so far or the action of one of the children. *)
Lemma select_uct_loop_total st N items ba bs :
  (1 ≤ N)%Z →
  (∀ a cid, (a, cid) ∈ items → ∃ c,
      st !! cid = Some c ∧ (0 ≤ visits c)%Z ∧
      f_finite (value_sum c) = true) →
  ∃ r, select_uct_loop cfg st N items ba bs = Ok r ∧
    match r with
    | Some a => r = ba ∨ a ∈ items.*1
    | None => ba = None ∧ (bs = f_neg_inf → items = [])
    end.
Proof.
  intros HN. revert ba bs.
  induction items as [|[a cid] rest IH]; intros ba bs Hall.
  - exists ba. split; [done|]. destruct ba; auto.
  - destruct (Hall a cid) as (c & Hc & Hv & Hfin); [apply list_elem_of_here|].
    assert (∀ a cid, (a, cid) ∈ rest → ∃ c,
      st !! cid = Some c ∧ (0 ≤ visits c)%Z ∧
      f_finite (value_sum c) = true) as Hrest.
    { intros a' cid' Hin. apply (Hall a'). by apply list_elem_of_further. }
    destruct (decide (visits c = 0%Z)) as [Hz|Hnz].
    { exists (Some a). split; [by eapply select_uct_loop_unvisited|].
      right. simpl. apply list_elem_of_here. }
    rewrite (select_uct_loop_visited _ _ _ _ _ c) by (done || lia).
    destruct (f_gt (uct_score cfg N c) bs) eqn:Hgt.
    + destruct (IH (Some a) (uct_score cfg N c) Hrest) as (r & -> & Hr).
      exists r. split; [done|]. destruct r as [a'|]; [|by destruct Hr].
      right. simpl.
      destruct Hr as [[= ->]|Hin];
        [apply list_elem_of_here | by apply list_elem_of_further].
    + destruct (IH ba bs Hrest) as (r & -> & Hr).
      exists r. split; [done|]. destruct r as [a'|].
      * destruct Hr as [?|Hin]; [by left|]. right. simpl.
        by apply list_elem_of_further.
      * destruct Hr as [-> _]. split; [done|]. intros ->.
        rewrite gt_neg_inf in Hgt; [done|].
        apply uct_score_finite; (done || lia).
Qed.

Lemma tree_inv_weaken pending pending' st :
  pending ⊆ pending' → tree_inv pending st → tree_inv pending' st.
Proof.
  intros Hsub [Hroot Hch Hvis Hfin]. split; [done..| |done].
  intros i nd Hi. destruct (Hvis i nd Hi) as [H0 H1].
  split; [done|]. intros Hne. destruct (H1 Hne); [by left|].
  right. by apply Hsub.
Qed.

(** [_select_uct] on a node of the tree that has children: it returns
    the action of one of them. *)
Lemma select_uct_wf st i nd :
  wf st → st !! i = Some nd → children nd ≠ [] →
  (1 ≤ visits nd)%Z ∧
  ∃ a cid, select_uct cfg st nd = Ok (Some a) ∧
           dict_get a (children nd) = Some cid ∧ (a, cid) ∈ children nd.
Proof.
  intros Hwf Hi Hne.
  assert (1 ≤ visits nd)%Z as HN.
  { destruct (inv_visits _ _ Hwf i nd Hi) as [_ Hv].
    destruct (Hv Hne) as [?|Hin]; [done|]. by apply elem_of_nil in Hin. }
  split; [done|].
  destruct (select_uct_loop_total st (visits nd) (children nd)
              None f_neg_inf HN) as (r & Hr & Hkey).
  { intros a cid Hin.
    destruct (inv_children _ _ Hwf i nd a cid Hi Hin) as [[_ Hlt] _].
    destruct (lookup_lt_is_Some_2 st cid Hlt) as [c Hc].
    exists c. split_and!; [done| |].
    - by destruct (inv_visits _ _ Hwf cid c Hc).
    - by apply (inv_finite _ _ Hwf cid c). }
  destruct r as [a|];
    [|destruct Hkey as [_ Hnil]; by specialize (Hnil eq_refl)].
  destruct Hkey as [?|Hin]; [done|].
  destruct (dict_get_is_Some a (children nd) Hin) as [cid Hcid].
  exists a, cid. split_and!; [done..|]. by apply dict_get_Some_elem.
Qed.

(** Selection returns, and keeps a path from the root down to the node
    it stops at. *)
Lemma select_loop_spec fuel st node path depth :
  wf st → path_ok st node path →
  ∃ node' path' depth',
    select_loop cfg fuel st node path depth = Ok (node', path', depth') ∧
    path_ok st node' path'.
Proof.
  intros Hwf. revert node path depth.
  induction fuel as [|fuel IH]; intros node path depth Hpath;
    simpl; [by eauto|].
  destruct Hpath as (Hnd & H0 & Hnode & Hle & Hlt).
  destruct (lookup_lt_is_Some_2 st node Hlt) as [nd Hi].
  unfold deref. rewrite Hi. simpl.
  destruct (negb (bool_decide (children nd = []))
            && negb (is_terminal (state nd))
            && (depth <? max_depth cfg)%Z) eqn:Hguard;
    [|exists node, path, depth; by repeat split].
  apply andb_prop in Hguard as [[Hne%negb_true_iff _]%andb_prop _].
  apply bool_decide_eq_false in Hne.
  destruct (select_uct_wf st node nd Hwf Hi Hne)
    as (_ & a & cid & -> & Hget & Hin).
  simpl. rewrite Hget.
  destruct (inv_children _ _ Hwf node nd a cid Hi Hin) as [[Hgt Hcid] _].
  apply IH. split_and!.
  - apply NoDup_app. split_and!; [done| |apply NoDup_singleton].
    intros i Hip ->%list_elem_of_singleton. apply Hle in Hip. lia.
  - apply elem_of_app. by left.
  - apply elem_of_app. right. by apply list_elem_of_singleton.
  - intros i [Hip| ->%list_elem_of_singleton]%elem_of_app; [|lia].
    apply Hle in Hip. lia.
  - done.
Qed.

Lemma lookup_expanded st node (x y z : @Node State Action F) i :
  node < length st →
  (<[node := x]> (st ++ [y])) !! i = Some z →
  (i = node ∧ z = x) ∨ (i ≠ node ∧ st !! i = Some z) ∨
  (i = length st ∧ i ≠ node ∧ z = y).
Proof.
  intros Hlt Hi. destruct (decide (i = node)) as [->|Hne].
  - rewrite list_lookup_insert_eq in Hi
      by (rewrite length_app; simpl; lia).
    left. by injection Hi as [= <-].
  - rewrite list_lookup_insert_ne in Hi by done.
    apply lookup_app_Some in Hi as [Hi|[Hge Hi]]; [by right; left|].
    right; right. apply list_lookup_singleton_Some in Hi as [Hi ->].
    split_and!; [lia|done..].
Qed.

(** Expansion returns.  It leaves the tree as it is or adds one fresh
    child under the node selection stopped at, which then ends the path. *)
Lemma expand_spec st g node path depth :
  wf st → path_ok st node path →
  ∃ fr, expand cfg st g node path depth = Ok fr ∧
    tree_inv (fr_path fr) (fr_store fr) ∧
    NoDup (fr_path fr) ∧ 0 ∈ fr_path fr ∧
    (∀ i, i ∈ fr_path fr → i < length (fr_store fr)) ∧
    fr_node fr < length (fr_store fr) ∧
    (∀ i nd, st !! i = Some nd → ∃ nd',
        fr_store fr !! i = Some nd' ∧ state nd' = state nd ∧
        visits nd' = visits nd).
Proof.
  intros Hwf (Hnd & H0 & Hnode & Hle & Hlt).
  assert (∀ i, i ∈ path → i < length st) as Hbound.
  { intros i Hi. apply Hle in Hi. lia. }
  set (same := {| fr_store := st; fr_rng := g; fr_node := node;
                  fr_path := path; fr_depth := depth |}).
  assert (∃ fr, Ok same = Ok fr ∧
    tree_inv (fr_path fr) (fr_store fr) ∧
    NoDup (fr_path fr) ∧ 0 ∈ fr_path fr ∧
    (∀ i, i ∈ fr_path fr → i < length (fr_store fr)) ∧
    fr_node fr < length (fr_store fr) ∧
    (∀ i nd, st !! i = Some nd → ∃ nd',
        fr_store fr !! i = Some nd' ∧ state nd' = state nd ∧
        visits nd' = visits nd)) as Hsame.
  { exists same. simpl. split_and!; [done| |done..|by eauto].
    eapply tree_inv_weaken; [|exact Hwf]. intros i Hi.
    by apply elem_of_nil in Hi. }
  destruct (lookup_lt_is_Some_2 st node Hlt) as [nd Hi].
  unfold expand. fold same. unfold deref. rewrite Hi. simpl.
  destruct (negb (is_terminal (state nd)) && (depth <? max_depth cfg)%Z);
    [|done].
  destruct (actions (state nd)) as [|a0 acts] eqn:Hacts; [done|].
  destruct (filter _ (a0 :: acts)) as [|u0 unexplored] eqn:Hun; [done|].
  destruct (choice_Ok (u0 :: unexplored) g) as (a & g1 & -> & Ha); [done|].
  simpl. destruct (sample_next_state_and_reward (state nd) a g1)
    as [[next_s reward] g2].
  eexists. split; [reflexivity|]. simpl.
  rewrite <- Hun in Ha. apply list_elem_of_filter in Ha as [_ Ha].
  rewrite <- Hacts in Ha.
  set (child := new_node next_s (Some (node, a))).
  set (nd' := set_child a (length st) nd).
  assert (length (<[node := nd']> (st ++ [child])) = S (length st)) as Hlen.
  { rewrite length_insert, length_app. simpl. lia. }
  split_and!.
  - split.
    + apply lookup_lt_is_Some_2. rewrite Hlen. lia.
    + intros i ndi b c Hlk Hin. rewrite Hlen.
      apply (lookup_expanded _ _ _ _ _ _ Hlt) in Hlk
        as [[-> ->]|[[Hne Hlk]|(-> & _ & ->)]].
      * simpl in Hin. apply elem_of_dict_set in Hin as [Hin|[-> ->]].
        -- destruct (inv_children _ _ Hwf node nd b c Hi Hin) as [[??] ?].
           simpl. split; [lia|done].
        -- simpl. split; [lia|done].
      * destruct (inv_children _ _ Hwf i ndi b c Hlk Hin) as [[??] ?].
        split; [lia|done].
      * simpl in Hin. by apply elem_of_nil in Hin.
    + intros i ndi Hlk.
      apply (lookup_expanded _ _ _ _ _ _ Hlt) in Hlk
        as [[-> ->]|[[Hne Hlk]|(-> & _ & ->)]].
      * simpl. destruct (inv_visits _ _ Hwf node nd Hi) as [Hv _].
        split; [done|]. intros _. right. apply elem_of_app. by left.
      * destruct (inv_visits _ _ Hwf i ndi Hlk) as [Hv Hc].
        split; [done|]. intros Hne'. destruct (Hc Hne') as [?|Hin];
          [by left | by apply elem_of_nil in Hin].
      * simpl. split; [lia|done].
    + intros i ndi Hlk.
      apply (lookup_expanded _ _ _ _ _ _ Hlt) in Hlk
        as [[-> ->]|[[Hne Hlk]|(-> & _ & ->)]].
      * simpl. by apply (inv_finite _ _ Hwf node nd).
      * by apply (inv_finite _ _ Hwf i ndi).
      * simpl. apply finite_zero.
  - apply NoDup_app. split_and!; [done| |apply NoDup_singleton].
    intros i Hip ->%list_elem_of_singleton. apply Hbound in Hip. lia.
  - apply elem_of_app. by left.
  - intros i [Hip| ->%list_elem_of_singleton]%elem_of_app; rewrite Hlen;
      [apply Hbound in Hip|]; lia.
  - rewrite Hlen. lia.
  - intros i ndi Hlk. destruct (decide (i = node)) as [->|Hne].
    + rewrite Hi in Hlk. injection Hlk as [= <-]. exists nd'.
      rewrite list_lookup_insert_eq by (rewrite length_app; simpl; lia).
      done.
    + exists ndi. rewrite list_lookup_insert_ne by done.
      rewrite lookup_app_l by (by eapply lookup_lt_Some). done.
Qed.

(** Backpropagation over the pending path restores the invariant. *)
Lemma backprop_wf st path v :
  tree_inv path st → NoDup path → (∀ i, i ∈ path → i < length st) →
  f_finite v = true →
  ∃ st', backprop st path v = Ok st' ∧ wf st' ∧
    ∀ i, st' !! i = if decide (i ∈ path) then (bump v <$> st !! i)
                    else st !! i.
Proof.
  intros Hinv Hnd Hlt Hv.
  destruct (backprop_spec st path v Hnd Hlt) as (st' & Hb & Hlen & Hst').
  exists st'. split_and!; [done| |done].
  assert (∀ i nd', st' !! i = Some nd' → ∃ nd,
    st !! i = Some nd ∧
    ((i ∈ path ∧ nd' = bump v nd) ∨ ((i ∉ path) ∧ nd' = nd))) as Hback.
  { intros i nd' Hi. rewrite Hst' in Hi. case_decide as Hin.
    - destruct (st !! i) as [nd|]; [|done]. injection Hi as [= <-].
      exists nd. split; [done|]. by left.
    - exists nd'. split; [done|]. by right. }
  split.
  - rewrite Hst'. destruct (inv_root _ _ Hinv) as [nd ->].
    case_decide; by eexists.
  - intros i nd' a c Hi Hin. rewrite Hlen.
    destruct (Hback i nd' Hi) as (nd & Hnd' & [[_ ->]|[_ ->]]);
      by apply (inv_children _ _ Hinv i nd).
  - intros i nd' Hi.
    destruct (Hback i nd' Hi) as (nd & Hnd' & [[Hin ->]|[Hin ->]]);
      destruct (inv_visits _ _ Hinv i nd Hnd') as [H0 H1]; simpl.
    + split; [lia|]. intros _. left. lia.
    + split; [done|]. intros Hne. destruct (H1 Hne); [by left|done].
  - intros i nd' Hi.
    destruct (Hback i nd' Hi) as (nd & Hnd' & [[_ ->]|[_ ->]]); simpl.
    + apply finite_add; [|done]. by apply (inv_finite _ _ Hinv i nd).
    + by apply (inv_finite _ _ Hinv i nd).
Qed.

(** One iteration of [search] returns; it keeps the invariant and the
    state of every node, and it visits the root once. *)
Lemma iteration_spec st g :
  wf st →
  ∃ st' g', iteration cfg st g = Ok (st', g') ∧ wf st' ∧
    ∀ nd, st !! 0 = Some nd → ∃ nd',
      st' !! 0 = Some nd' ∧ state nd' = state nd ∧
      visits nd' = (visits nd + 1)%Z.
Proof.
  intros Hwf. unfold iteration.
  destruct (select_loop_spec (Z.to_nat (max_depth cfg)) st 0 [0] 0%Z Hwf)
    as (node & path & depth & -> & Hpath).
  { split_and!.
    - apply NoDup_singleton.
    - by apply list_elem_of_singleton.
    - by apply list_elem_of_singleton.
    - by intros i ->%list_elem_of_singleton.
    - apply lookup_lt_is_Some_1, (inv_root _ _ Hwf). }
  simpl.
  destruct (expand_spec st g node path depth Hwf Hpath)
    as (fr & -> & Hinv & Hnd & H0 & Hlt & Hnode & Hkeep).
  simpl. destruct (lookup_lt_is_Some_2 _ _ Hnode) as [nd Hi].
  unfold deref at 1. rewrite Hi. simpl.
  destruct (rollout_Ok (state nd) (fr_depth fr) (fr_rng fr))
    as (v & g' & -> & Hv).
  simpl.
  destruct (backprop_wf (fr_store fr) (fr_path fr) v Hinv Hnd Hlt Hv)
    as (st' & -> & Hwf' & Hst').
  simpl. exists st', g'. split_and!; [done..|].
  intros root Hroot. destruct (Hkeep 0 root Hroot) as (root' & Hr & Hs & Hvis).
  exists (bump v root'). rewrite Hst', decide_True, Hr by done.
  simpl. split_and!; [done..|]. by rewrite Hvis.
Qed.

(** Any number of iterations. *)
Lemma search_loop_spec k st g :
  wf st →
  ∃ st' g', search_loop cfg k st g = Ok (st', g') ∧ wf st' ∧
    ∀ nd, st !! 0 = Some nd → ∃ nd',
      st' !! 0 = Some nd' ∧ state nd' = state nd ∧
      visits nd' = (visits nd + Z.of_nat k)%Z.
Proof.
  revert st g. induction k as [|k IH]; intros st g Hwf.
  - exists st, g. split_and!; [done..|]. intros nd Hnd. exists nd.
    split_and!; [done..|]. simpl. lia.
  - simpl. destruct (iteration_spec st g Hwf) as (st1 & g1 & -> & Hwf1 & H1).
    simpl. destruct (IH st1 g1 Hwf1) as (st' & g' & -> & Hwf' & H').
    exists st', g'. split_and!; [done..|]. intros nd Hnd.
    destruct (H1 nd Hnd) as (nd1 & Hnd1 & Hs1 & Hv1).
    destruct (H' nd1 Hnd1) as (nd' & Hnd' & Hs' & Hv').
    exists nd'. split_and!; [done|congruence|lia].
Qed.

Lemma wf_initial (root_state : State) :
  wf [new_node (F := F) (Action := Action) root_state None].
Proof.
  split.
  - by eexists.
  - intros [|i] nd a c [= <-] Hin; by apply elem_of_nil in Hin.
  - intros [|i] nd [= <-]. simpl. split; [lia|done].
  - intros [|i] nd [= <-]. simpl. apply finite_zero.
Qed.

Lemma search_tree_spec root_state g :
  ∃ st g' root,
    search_tree cfg root_state g = Ok (st, g') ∧ wf st ∧
    st !! 0 = Some root ∧ state root = root_state ∧
    visits root = Z.of_nat (Z.to_nat (rollouts cfg)).
Proof.
  unfold search_tree.
  destruct (search_loop_spec (Z.to_nat (rollouts cfg))
              [new_node root_state None] g (wf_initial root_state))
    as (st & g' & Hs & Hwf & Hroot).
  destruct (Hroot (new_node root_state None) eq_refl)
    as (root & Hr & Hstate & Hvis).
  exists st, g', root. split_and!; [done..|]. rewrite Hvis. simpl. lia.
Qed.

Lemma most_visited_spec st items ba bv :
  (∀ a cid, (a, cid) ∈ items → cid < length st) →
  ∃ r, most_visited st items ba bv = Ok r ∧
       (r = ba ∨ ∃ a, r = Some a ∧ a ∈ items.*1).
Proof.
  revert ba bv. induction items as [|[a cid] rest IH]; intros ba bv Hall.
  - exists ba. split; [done|]. by left.
  - simpl. destruct (deref_lt st cid) as [ch ->].
    { apply (Hall a). apply list_elem_of_here. }
    simpl.
    assert (∀ a cid, (a, cid) ∈ rest → cid < length st) as Hrest.
    { intros a' cid' Hin. apply (Hall a'). by apply list_elem_of_further. }
    destruct (bv <? visits ch)%Z.
    + destruct (IH (Some a) (visits ch) Hrest) as (r & -> & Hr).
      exists r. split; [done|]. right.
      destruct Hr as [->|(a' & -> & Hin)].
      * exists a. split; [done|]. apply list_elem_of_here.
      * exists a'. split; [done|]. by apply list_elem_of_further.
    + destruct (IH ba bv Hrest) as (r & -> & Hr).
      exists r. split; [done|]. destruct Hr as [->|(a' & -> & Hin)];
        [by left|]. right. exists a'. split; [done|].
      by apply list_elem_of_further.
Qed.

(** Action extraction on a tree that satisfies the invariant. *)
Lemma extract_action_spec st root :
  wf st → st !! 0 = Some root → actions (state root) ≠ [] →
  ∃ a, extract_action st (state root) = Ok a ∧ a ∈ actions (state root).
Proof.
  intros Hwf Hroot Hacts. unfold extract_action, deref.
  rewrite Hroot. simpl.
  destruct (most_visited_spec st (children root) None (-1)%Z)
    as (r & -> & Hr).
  { intros a cid Hin.
    by destruct (inv_children _ _ Hwf 0 root a cid Hroot Hin) as [[_ ?] _]. }
  simpl. destruct Hr as [->|(a & -> & Hin)].
  - destruct (actions (state root)) as [|a rest]; [done|].
    exists a. split; [done|]. apply list_elem_of_here.
  - exists a. split; [done|].
    apply list_elem_of_fmap in Hin as ([a' cid] & -> & Hin).
    by destruct (inv_children _ _ Hwf 0 root a' cid Hroot Hin) as [_ ?].
Qed.

Lemma reachable_wf root_state g0 st g :
  reachable cfg root_state g0 st g → wf st.
Proof.
  induction 1 as [|st g st' g' _ IH Hit]; [apply wf_initial|].
  destruct (iteration_spec st g IH) as (st1 & g1 & Hit1 & Hwf1 & _).
  congruence.
Qed.

End search_facts.

(** ** Roots that cannot be expanded *)

Section fallback_facts.
Context {State Action F Rng : Type}.
Context `{!EqDecision Action, !PyFloat F, !MDP State Action,
          !RandomSource Rng, !Sampler State Action F Rng}.
Variable cfg : @MCTSConfig F.
Local Abbreviation store := (list (@Node State Action F)).
Implicit Types (st : store) (nd : @Node State Action F) (g : Rng).

Lemma rollout_stuck s g : stuck cfg s → rollout cfg s 0 g = Ok (f_zero, g).
Proof.
  intros Hs. unfold rollout.
  destruct (Z.to_nat (max_depth cfg - 0)) as [|fuel] eqn:Hfuel; [done|].
  simpl. destruct Hs as [->|[->|Hd]].
  - done.
  - by destruct (negb (is_terminal s) && (0 <? max_depth cfg)%Z).
  - lia.
Qed.

Lemma select_loop_leaf fuel st nd :
  st !! 0 = Some nd → children nd = [] →
  select_loop cfg fuel st 0 [0] 0%Z = Ok (0, [0], 0%Z).
Proof.
  intros Hroot Hch. destruct fuel as [|fuel]; [done|].
  simpl. unfold deref. rewrite Hroot. simpl. rewrite Hch.
  by rewrite bool_decide_eq_true_2.
Qed.

Lemma expand_stuck st nd g :
  st !! 0 = Some nd → stuck cfg (state nd) →
  expand cfg st g 0 [0] 0%Z =
    Ok {| fr_store := st; fr_rng := g; fr_node := 0; fr_path := [0];
          fr_depth := 0%Z |}.
Proof.
  intros Hroot Hs. unfold expand, deref. rewrite Hroot. simpl.
  destruct Hs as [->|[->|Hd]].
  - done.
  - by destruct (negb (is_terminal (state nd)) && (0 <? max_depth cfg)%Z).
  - destruct (Z.ltb_spec 0 (max_depth cfg)) as [?|_]; [lia|].
    by rewrite andb_false_r.
Qed.

(** The fuel [iteration] gives the selection loop is enough: when the
    loop returns, the condition of the while statement is false. *)
Lemma select_loop_exit fuel st node path depth node' path' depth' :
  Z.to_nat (max_depth cfg - depth) ≤ fuel →
  select_loop cfg fuel st node path depth = Ok (node', path', depth') →
  ∀ nd', st !! node' = Some nd' →
    negb (bool_decide (children nd' = []))
    && negb (is_terminal (state nd')) && (depth' <? max_depth cfg)%Z = false.
Proof.
  revert node path depth.
  induction fuel as [|fuel IH]; intros node path depth Hfuel; simpl.
  - intros [= <- <- <-] nd' _.
    destruct (Z.ltb_spec depth (max_depth cfg)) as [?|_]; [lia|].
    apply andb_false_r.
  - unfold deref at 1. destruct (st !! node) as [nd|] eqn:Hnode; simpl; [|done].
    destruct (negb (bool_decide (children nd = []))
              && negb (is_terminal (state nd))
              && (depth <? max_depth cfg)%Z) eqn:Hguard.
    + destruct (select_uct cfg st nd) as [oa|e]; simpl; [|done].
      destruct (oa ≫= λ a, dict_get a (children nd)) as [cid|]; [|done].
      apply IH. lia.
    + intros Heq nd' Hnd'. simplify_eq. congruence.
Qed.

(** An iteration at such a root only visits the root, with value 0.0. *)
Lemma iteration_stuck st nd g :
  st !! 0 = Some nd → children nd = [] → stuck cfg (state nd) →
  iteration cfg st g = Ok (<[0 := bump f_zero nd]> st, g).
Proof.
  intros Hroot Hch Hs. unfold iteration.
  rewrite (select_loop_leaf _ st nd Hroot Hch). simpl.
  rewrite (expand_stuck st nd g Hroot Hs). simpl.
  unfold deref. rewrite Hroot. simpl.
  by rewrite (rollout_stuck _ g Hs).
Qed.

Lemma search_loop_stuck k st nd g :
  st !! 0 = Some nd → children nd = [] → stuck cfg (state nd) →
  ∃ st' nd', search_loop cfg k st g = Ok (st', g) ∧
             st' !! 0 = Some nd' ∧ children nd' = [].
Proof.
  revert st nd. induction k as [|k IH]; intros st nd Hroot Hch Hs.
  - by exists st, nd.
  - simpl. rewrite (iteration_stuck st nd g Hroot Hch Hs). simpl.
    apply (IH _ (bump f_zero nd)); [|done..].
    apply list_lookup_insert_eq. by eapply lookup_lt_Some.
Qed.

Lemma extract_action_no_children st nd root_state :
  st !! 0 = Some nd → children nd = [] →
  extract_action st root_state = fallback root_state.
Proof.
  intros Hroot Hch. unfold extract_action, deref. rewrite Hroot. simpl.
  by rewrite Hch.
Qed.

(** [search] with no iteration to run, or at a root that cannot be
    expanded, is the fallback, and it leaves the random source alone. *)
Lemma search_fallback root_state g :
  (rollouts cfg ≤ 0)%Z ∨ stuck cfg root_state →
  search cfg root_state g = (a ← fallback root_state; Ok (a, g)).
Proof.
  intros Hcase. unfold search, search_tree.
  assert (∃ st' nd', search_loop cfg (Z.to_nat (rollouts cfg))
            [new_node root_state None] g = Ok (st', g) ∧
            st' !! 0 = Some nd' ∧ children nd' = [])
    as (st' & nd' & -> & Hroot & Hch).
  { destruct Hcase as [HR|Hs].
    - replace (Z.to_nat (rollouts cfg)) with 0 by lia.
      by exists [new_node root_state None], (new_node root_state None).
    - by apply (search_loop_stuck _ _ (new_node root_state None)). }
  simpl. by rewrite (extract_action_no_children st' nd' _ Hroot Hch).
Qed.

(** C8. When the root has no children after the rollouts, action
    extraction returns the first action enumerable at the root state, and
    raises when there is none; a budget [rollouts <= 0] is such a case, and
    so is a root state without actions. *)
Theorem search_without_children_falls_back :
  (∀ st nd root_state,
      st !! 0 = Some nd → children nd = [] →
      extract_action st root_state =
        match actions root_state with
        | [] => Raise RuntimeError
        | a :: _ => Ok a
        end) ∧
  (∀ root_state g,
      (rollouts cfg ≤ 0)%Z ∨ actions root_state = [] →
      search cfg root_state g =
        match actions root_state with
        | [] => Raise RuntimeError
        | a :: _ => Ok (a, g)
        end).
Proof.
  split.
  - intros st nd root_state Hroot Hch.
    by rewrite (extract_action_no_children st nd).
  - intros root_state g Hcase. rewrite search_fallback.
    + unfold fallback. by destruct (actions root_state).
    + destruct Hcase as [?|?]; [by left|]. right. right. by left.
Qed.

(** C6, amended. [search] aborts (with RuntimeError) when no action is
    enumerable at the root state, terminal or not.  At a terminal root
    state where the environment enumerates actions it does not abort: it
    returns the first of them. *)
Theorem search_aborts_without_actions :
  (∀ root_state g,
      actions root_state = [] →
      search cfg root_state g = Raise RuntimeError) ∧
  (∀ root_state g a rest,
      is_terminal root_state = true → actions root_state = a :: rest →
      search cfg root_state g = Ok (a, g)).
Proof.
  split.
  - intros root_state g Hacts. rewrite search_fallback.
    + unfold fallback. by rewrite Hacts.
    + right. right. by left.
  - intros root_state g a rest Hterm Hacts. rewrite search_fallback.
    + unfold fallback. by rewrite Hacts.
    + right. by left.
Qed.

Lemma rollout_loop_rewards fuel s depth total discount g :
  rollout_loop cfg fuel s depth total discount g =
    '(rs, g') ← rollout_rewards cfg fuel s depth g;
    Ok ((foldl (accumulate cfg) (total, discount) rs).1, g').
Proof.
  revert s depth total discount g.
  induction fuel as [|fuel IH]; intros s depth total discount g; [done|].
  simpl. destruct (is_terminal s); simpl; [done|].
  destruct (Z.ltb_spec depth (max_depth cfg)),
           (Z.leb_spec (max_depth cfg) depth); try lia; [|done].
  destruct (actions s) as [|a0 acts]; [done|].
  destruct (choice (a0 :: acts) g) as [[a g1]|e]; simpl; [|done].
  destruct (sample_next_state_and_reward s a g1) as [[next_s reward] g2].
  rewrite IH.
  by destruct (rollout_rewards cfg fuel next_s (depth + 1) g2) as [[rs g3]|e].
Qed.

Lemma backprop_length st path v st' :
  backprop st path v = Ok st' → length st' = length st.
Proof.
  revert st. induction path as [|n rest IH]; intros st; simpl.
  - by intros [= ->].
  - destruct (deref st n) as [nd|e]; simpl; [|done].
    intros Hb%IH. by rewrite length_insert in Hb.
Qed.

(** C4. The rollout from state [s] at depth [d] returns the total that
    [total += discount * reward; discount *= gamma] builds from (0.0, 1.0)
    over the rewards it samples.  It samples none, and returns 0.0 with
    the random source untouched, when [s] is terminal, [d] has reached
    [max_depth] or [s] has no action; otherwise it draws an action with
    [rng.choice] among the available ones and a transition, and goes on
    from the next state at depth [d + 1].  It takes and gives no tree:
    the tree after an iteration has the nodes it had after expansion. *)
Theorem rollout_rule s depth g :
  rollout cfg s depth g =
    ('(rs, g') ← rollout_rewards cfg (Z.to_nat (max_depth cfg - depth))
                   s depth g;
     Ok ((foldl (accumulate cfg) (f_zero, f_one) rs).1, g')) ∧
  (is_terminal s = true ∨ (max_depth cfg ≤ depth)%Z ∨ actions s = [] →
   rollout_rewards cfg (Z.to_nat (max_depth cfg - depth)) s depth g
     = Ok ([], g) ∧
   rollout cfg s depth g = Ok (f_zero, g)) ∧
  (is_terminal s = false → (depth < max_depth cfg)%Z → actions s ≠ [] →
   rollout_rewards cfg (Z.to_nat (max_depth cfg - depth)) s depth g =
     ('(a, g1) ← choice (actions s) g;
      let '(next_s, reward, g2) := sample_next_state_and_reward s a g1 in
      '(rs, g3) ← rollout_rewards cfg
                    (Z.to_nat (max_depth cfg - (depth + 1)))
                    next_s (depth + 1)%Z g2;
      Ok (reward :: rs, g3))) ∧
  (∀ st st' g',
      iteration cfg st g = Ok (st', g') →
      ∃ node path d fr,
        select_loop cfg (Z.to_nat (max_depth cfg)) st 0 [0] 0%Z
          = Ok (node, path, d) ∧
        expand cfg st g node path d = Ok fr ∧
        length st' = length (fr_store fr)).
Proof.
  assert (is_terminal s = true ∨ (max_depth cfg ≤ depth)%Z ∨ actions s = [] →
          rollout_rewards cfg (Z.to_nat (max_depth cfg - depth)) s depth g
            = Ok ([], g)) as Hstop.
  { intros Hcase.
    destruct (Z.to_nat (max_depth cfg - depth)) as [|fuel] eqn:Hf; [done|].
    simpl. destruct Hcase as [->|[Hd|Ha]]; [done|lia|].
    rewrite Ha. by destruct (_ || _). }
  split_and!.
  - apply rollout_loop_rewards.
  - intros Hcase. split; [by apply Hstop|].
    unfold rollout. rewrite rollout_loop_rewards. by rewrite Hstop.
  - intros Hterm Hd Hacts.
    replace (Z.to_nat (max_depth cfg - depth))
      with (S (Z.to_nat (max_depth cfg - (depth + 1)))) by lia.
    simpl. rewrite Hterm. simpl.
    destruct (Z.leb_spec (max_depth cfg) depth) as [?|_]; [lia|].
    by destruct (actions s).
  - intros st st' g'. unfold iteration.
    destruct (select_loop cfg _ st 0 [0] 0%Z) as [[[node path] d]|e];
      simpl; [|done].
    destruct (expand cfg st g node path d) as [fr|e] eqn:He; simpl; [|done].
    destruct (deref (fr_store fr) (fr_node fr)) as [nd|e]; simpl; [|done].
    destruct (rollout cfg (state nd) (fr_depth fr) (fr_rng fr))
      as [[value g1]|e]; simpl; [|done].
    destruct (backprop (fr_store fr) (fr_path fr) value) as [st1|e] eqn:Hb;
      simpl; [|done].
    intros [= <- <-]. exists node, path, d, fr. split_and!; [done..|].
    by eapply backprop_length.
Qed.
End fallback_facts.

(** ** The planner object *)

Section object_facts.
Context {State Action F Rng : Type}.
Context `{!EqDecision Action, !PyFloat F, !MDP State Action,
          !RandomSource Rng, !Sampler State Action F Rng}.
Implicit Types (self m : @MCTS F Rng) (c : @MCTSConfig F).

(** C7, amended. No configuration is rejected: constructing
    [MCTSConfig] and [MCTS] returns a planner for any [gamma], [c_uct],
    [rollouts] and [max_depth].  An invalid value shows, if at all, in what
    [search] does: with [rollouts <= 0] or [max_depth <= 0] it returns the
    first action enumerable at the root state (RuntimeError when there is
    none) and leaves the planner as it was. *)
Theorem construct_accepts_any_config :
  (∀ (gamma0 c_uct0 : F) (rollouts0 max_depth0 : Z) (rng : option Rng),
      construct gamma0 c_uct0 rollouts0 max_depth0 rng =
        Ok (MCTS_init {| gamma := gamma0; c_uct := c_uct0;
                         rollouts := rollouts0; max_depth := max_depth0 |}
                      rng)) ∧
  (∀ self (root_state : State),
      (rollouts (mcts_cfg self) ≤ 0)%Z ∨ (max_depth (mcts_cfg self) ≤ 0)%Z →
      MCTS_search self root_state =
        match actions root_state with
        | [] => Raise RuntimeError
        | a :: _ => Ok (a, self)
        end).
Proof.
  split; [done|]. intros [c g] root_state Hcase. unfold MCTS_search. simpl in *.
  rewrite search_fallback.
  - unfold fallback. by destruct (actions root_state).
  - destruct Hcase as [?|?]; [by left|]. right. right. by right.
Qed.
End object_facts.

(** ** The exploration-only bandit *)

Section bandit_facts.
Context {NpState : Type} `{!NumpyRandom NpState, !NumpyRandomOk NpState}.

(** C10, amended. For 1 <= n_arms <= 2^63, [select_arm] returns an integer
    i with 0 <= i <= n_arms - 1, given that numpy's generator keeps its
    contract and draws from [0, n_arms).  (Beyond 2^63
    [np.random.randint] raises ValueError: the bound is out of the range
    of int64.) *)
Theorem select_arm_in_range (self : ExplorationOnly) (g : NpState) :
  (1 ≤ n_arms self ≤ int64_max + 1)%Z →
  ∃ i g', select_arm self g = Ok (i, g') ∧ (0 ≤ i ≤ n_arms self - 1)%Z.
Proof.
  intros Hn. unfold select_arm, np_random_randint.
  destruct (Z.ltb_spec 0 int64_min) as [Hlow|_]; [by unfold int64_min in Hlow|].
  destruct (Z.ltb_spec (int64_max + 1) (n_arms self)) as [?|_]; [lia|].
  simpl. destruct (Z.leb_spec (n_arms self) 0) as [?|_]; [lia|].
  pose proof (np_bounded_range (n_arms self - 0) g) as Hr.
  destruct (np_bounded (n_arms self - 0) g) as [r g'].
  exists (0 + r)%Z, g'. split; [done|]. simpl in Hr. lia.
Qed.
End bandit_facts.

(** ** The selection rule *)

Section uct_rule_facts.
Context {State Action F Rng : Type}.
Context `{!EqDecision Action, !PyFloat F, !MDP State Action,
          !RandomSource Rng, !Sampler State Action F Rng}.
Variable cfg : @MCTSConfig F.
Local Abbreviation store := (list (@Node State Action F)).
Implicit Types (st : store) (nd c : @Node State Action F).
Implicit Types (items : list (Action * nat)) (N : Z).

(** At a visited child the code's [q] is the mean value of the
    specification. *)
Lemma q_mean_value c : q c = mean_value c.
Proof.
  unfold q, mean_value.
  destruct (Z.eqb_spec (visits c) 0) as [Hz|Hnz].
  - by rewrite decide_True.
  - by rewrite decide_False.
Qed.

(** One turn of the loop at a visited child, when [math.sqrt] gets an
    argument that is not negative: the score computed is the score of the
    specification. *)
Lemma select_uct_loop_turn st N a cid c rest ba bs :
  (1 ≤ N)%Z → st !! cid = Some c → (0 < visits c)%Z →
  f_gt f_zero (f_div (f_ln N) (f_of_int (visits c))) = false →
  select_uct_loop cfg st N ((a, cid) :: rest) ba bs =
    if f_gt (spec_uct_score (c_uct cfg) N c) bs
    then select_uct_loop cfg st N rest (Some a)
           (spec_uct_score (c_uct cfg) N c)
    else select_uct_loop cfg st N rest ba bs.
Proof.
  intros HN Hc Hv Hsqrt. simpl. unfold deref. rewrite Hc. simpl.
  destruct (Z.eqb_spec (visits c) 0) as [?|_]; [lia|].
  unfold math_log. destruct (Z.leb_spec N 0) as [?|_]; [lia|]. simpl.
  unfold math_sqrt. rewrite Hsqrt. simpl.
  unfold spec_uct_score. by rewrite q_mean_value.
Qed.

Lemma select_uct_loop_to_unvisited st N items i a cid c ba bs :
  (1 ≤ N)%Z →
  items !! i = Some (a, cid) → st !! cid = Some c → visits c = 0%Z →
  (∀ j, j < i → ∃ a' cid' c',
      items !! j = Some (a', cid') ∧ st !! cid' = Some c' ∧
      (0 < visits c')%Z ∧
      f_gt f_zero (f_div (f_ln N) (f_of_int (visits c'))) = false) →
  select_uct_loop cfg st N items ba bs = Ok (Some a).
Proof.
  intros HN. revert items ba bs.
  induction i as [|i IH]; intros items ba bs Hi Hc Hv Hpre.
  - destruct items as [|[a0 cid0] rest]; [done|].
    injection Hi as [= -> ->]. simpl. unfold deref. rewrite Hc. simpl.
    by rewrite Hv.
  - destruct items as [|[a0 cid0] rest]; [done|]. simpl in Hi.
    destruct (Hpre 0) as (a' & cid' & c' & [= <- <-] & Hc' & Hv' & Hs');
      [lia|].
    rewrite (select_uct_loop_turn _ _ _ _ c') by done.
    assert (∀ j, j < i → ∃ a' cid' c',
      rest !! j = Some (a', cid') ∧ st !! cid' = Some c' ∧
      (0 < visits c')%Z ∧
      f_gt f_zero (f_div (f_ln N) (f_of_int (visits c'))) = false) as Hrest.
    { intros j Hj. destruct (Hpre (S j)) as (?&?&?&?&?&?&?); [lia|].
      eauto 10. }
    destruct (f_gt (spec_uct_score (c_uct cfg) N c') bs); by apply IH.
Qed.

Lemma select_uct_loop_is_argmax st N items scores ba bs :
  (1 ≤ N)%Z →
  Forall2 (λ (it : Action * nat) (sc : Action * F),
    it.1 = sc.1 ∧ ∃ c, st !! it.2 = Some c ∧ (0 < visits c)%Z ∧
      f_gt f_zero (f_div (f_ln N) (f_of_int (visits c))) = false ∧
      sc.2 = spec_uct_score (c_uct cfg) N c) items scores →
  select_uct_loop cfg st N items ba bs = Ok (argmax_loop scores ba bs).
Proof.
  intros HN Hall. revert ba bs.
  induction Hall
    as [|[a cid] [a' s] items scores (Ha & c & Hc & Hv & Hsq & Hs) _ IH];
    intros ba bs; [done|].
  simpl in Ha, Hc, Hs. subst a' s.
  rewrite (select_uct_loop_turn _ _ _ _ c) by done. simpl.
  destruct (f_gt (spec_uct_score (c_uct cfg) N c) bs); apply IH.
Qed.

(** [argmax_loop] over scores in a set [ok] of floats that lie above
    minus infinity and that [>] orders. *)
Lemma argmax_loop_ordered (ok : F → Prop) (todo seen : list (Action * F))
    ba bs :
  (∀ x, ok x → f_gt x f_neg_inf = true) →
  (∀ x y, ok x → ok y → f_gt x y = true → f_gt y x = false) →
  (∀ x y z, ok x → ok y → ok z →
     f_gt x y = true → f_gt x z = true ∨ f_gt z y = true) →
  Forall (λ sc, ok sc.2) (seen ++ todo) →
  best_so_far seen ba bs →
  ∃ bs', best_so_far (seen ++ todo) (argmax_loop todo ba bs) bs'.
Proof.
  intros Hinf Hasym Hcotrans. revert seen ba bs.
  induction todo as [|[a s] todo IH]; intros seen ba bs Hok Hinv.
  - rewrite app_nil_r. by exists bs.
  - simpl. replace (seen ++ (a, s) :: todo) with ((seen ++ [(a, s)]) ++ todo)
      in * by (by rewrite <- app_assoc).
    assert (ok s) as Hs.
    { rewrite Forall_app, Forall_app in Hok.
      destruct Hok as [[_ Hok] _]. rewrite Forall_singleton in Hok.
      exact Hok. }
    assert (∀ j a' s', seen !! j = Some (a', s') → ok s') as Hseen.
    { intros j a' s' Hj. rewrite Forall_app, Forall_app in Hok.
      destruct Hok as [[Hok _] _].
      by apply (Forall_lookup_1 _ _ _ _ Hok Hj). }
    destruct (f_gt s bs) eqn:Hgt.
    + apply IH; [done|]. simpl. exists (length seen). split.
      { by rewrite lookup_app_r, Nat.sub_diag by lia. }
      intros j a' s' Hj. destruct (decide (j < length seen)) as [Hlt|Hge].
      * rewrite lookup_app_l in Hj by done.
        destruct ba as [a0|]; simpl in Hinv.
        -- destruct Hinv as (i & Hi & Hbest).
           destruct (Hbest _ _ _ Hj) as [Hle _].
           assert (f_gt s s' = true) as Hss'.
           { destruct (Hcotrans s bs s' Hs (Hseen _ _ _ Hi)
                         (Hseen _ _ _ Hj) Hgt) as [?|Hc]; [done|congruence]. }
           split; [|done]. apply Hasym; eauto.
        -- destruct Hinv as [-> _]. done.
      * rewrite lookup_app_r in Hj by lia.
        destruct (j - length seen) as [|k] eqn:Hk; [|done].
        injection Hj as [= <- <-]. split; [|lia].
        destruct (f_gt s s) eqn:Hrefl; [|done].
        pose proof (Hasym s s Hs Hs Hrefl). congruence.
    + destruct ba as [a0|]; simpl in Hinv.
      * apply IH; [done|]. simpl. destruct Hinv as (i & Hi & Hbest).
        exists i. split.
        { rewrite lookup_app_l; [done|]. by eapply lookup_lt_Some. }
        intros j a' s' Hj. destruct (decide (j < length seen)) as [Hlt|Hge].
        -- rewrite lookup_app_l in Hj by done. eauto.
        -- rewrite lookup_app_r in Hj by lia.
           destruct (j - length seen) as [|k] eqn:Hk; [|done].
           injection Hj as [= <- <-]. split; [done|].
           apply lookup_lt_Some in Hi. lia.
      * destruct Hinv as [_ ->]. by rewrite Hinf in Hgt.
Qed.

(** No score above minus infinity: the loop keeps None. *)
Lemma argmax_loop_none (todo : list (Action * F)) :
  Forall (λ sc, f_gt sc.2 f_neg_inf = false) todo →
  argmax_loop todo None f_neg_inf = None.
Proof.
  induction 1 as [|[a s] todo Hs _ IH]; [done|].
  simpl in *. by rewrite Hs.
Qed.

End uct_rule_facts.

(** ** The shape of the tree *)

Section shape_facts.
Context {State Action F Rng : Type}.
Context `{!EqDecision Action, !PyFloat F, !MDP State Action,
          !RandomSource Rng, !Sampler State Action F Rng}.
Variable cfg : @MCTSConfig F.
Local Abbreviation store := (list (@Node State Action F)).
Implicit Types (st : store) (nd : @Node State Action F) (g : Rng).
Implicit Types (path : list nat).

(** The phases of an iteration that returned. *)
Lemma iteration_inv st g st' g' :
  iteration cfg st g = Ok (st', g') →
  ∃ node path depth fr nd value,
    select_loop cfg (Z.to_nat (max_depth cfg)) st 0 [0] 0%Z
      = Ok (node, path, depth) ∧
    expand cfg st g node path depth = Ok fr ∧
    fr_store fr !! fr_node fr = Some nd ∧
    rollout cfg (state nd) (fr_depth fr) (fr_rng fr) = Ok (value, g') ∧
    backprop (fr_store fr) (fr_path fr) value = Ok st'.
Proof.
  unfold iteration.
  destruct (select_loop cfg _ st 0 [0] 0%Z) as [[[node path] depth]|e];
    simpl; [|done].
  destruct (expand cfg st g node path depth) as [fr|e] eqn:He;
    simpl; [|done].
  destruct (deref (fr_store fr) (fr_node fr)) as [nd|e] eqn:Hd;
    simpl; [|done].
  destruct (rollout cfg (state nd) (fr_depth fr) (fr_rng fr))
    as [[value g1]|e] eqn:Hr; simpl; [|done].
  destruct (backprop (fr_store fr) (fr_path fr) value) as [st1|e] eqn:Hb;
    simpl; [|done].
  intros [= <- <-]. exists node, path, depth, fr, nd, value.
  split_and!; [done..| |done|done]. by apply deref_Ok.
Qed.

Lemma choice_elem {A : Type} (l : list A) g a g1 :
  choice l g = Ok (a, g1) → a ∈ l.
Proof.
  unfold choice. destruct l as [|x l]; [done|].
  destruct (randbelow (length (x :: l)) g) as [i g'].
  destruct ((x :: l) !! i) as [b|] eqn:Hi; [|done].
  intros [= <- <-]. by eapply list_elem_of_lookup_2.
Qed.

(** Expansion that returned left everything as it was, or added one fresh
    node under a non-terminal [node] above [max_depth], for an action
    enumerable there that was no key of [node.children] yet. *)
Lemma expand_inv st g node path depth fr :
  expand cfg st g node path depth = Ok fr →
  fr = {| fr_store := st; fr_rng := g; fr_node := node; fr_path := path;
          fr_depth := depth |} ∨
  ∃ nd a next_s,
    st !! node = Some nd ∧ is_terminal (state nd) = false ∧
    (depth < max_depth cfg)%Z ∧ a ∈ actions (state nd) ∧
    dict_mem a (children nd) = false ∧
    fr_store fr = <[node := set_child a (length st) nd]>
                    (st ++ [new_node next_s (Some (node, a))]) ∧
    fr_node fr = length st ∧ fr_path fr = path ++ [length st] ∧
    fr_depth fr = (depth + 1)%Z.
Proof.
  unfold expand, deref. destruct (st !! node) as [nd|] eqn:Hnode;
    simpl; [|done].
  destruct (is_terminal (state nd)) eqn:Hterm; simpl;
    [intros [= <-]; by left|].
  destruct (Z.ltb_spec depth (max_depth cfg)) as [Hd|_];
    [|intros [= <-]; by left].
  destruct (actions (state nd)) as [|a0 acts] eqn:Hacts;
    [intros [= <-]; by left|].
  destruct (filter _ (a0 :: acts)) as [|u0 un] eqn:Hun;
    [intros [= <-]; by left|].
  destruct (choice (u0 :: un) g) as [[a g1]|e] eqn:Hc; simpl; [|done].
  destruct (sample_next_state_and_reward (state nd) a g1)
    as [[next_s reward] g2].
  intros [= <-]. right. exists nd, a, next_s. simpl.
  apply choice_elem in Hc. rewrite <- Hun in Hc.
  apply list_elem_of_filter in Hc as [Hmem Hin].
  split_and!; try done. by rewrite Hacts.
Qed.

(** Backpropagation that returned kept the nodes in place, with their
    state, parent edge and children, and lowered no visit count. *)
Lemma backprop_inv st path v st' :
  backprop st path v = Ok st' →
  length st' = length st ∧
  ∀ i nd, st !! i = Some nd → ∃ nd',
    st' !! i = Some nd' ∧ state nd' = state nd ∧ parent nd' = parent nd ∧
    children nd' = children nd ∧ (visits nd ≤ visits nd')%Z.
Proof.
  revert st. induction path as [|n rest IH]; intros st; simpl.
  - intros [= <-]. split; [done|]. intros i nd Hi. exists nd.
    split_and!; [done..|lia].
  - unfold deref. destruct (st !! n) as [ndn|] eqn:Hn; simpl; [|done].
    intros [Hlen Hkeep]%IH. rewrite length_insert in Hlen.
    split; [done|]. intros i nd Hi.
    destruct (decide (i = n)) as [->|Hne].
    + destruct (Hkeep n (bump v ndn)) as (nd' & ? & ? & ? & ? & ?).
      { apply list_lookup_insert_eq. by eapply lookup_lt_Some. }
      exists nd'. simplify_eq. simpl in *. split_and!; [done..|lia].
    + destruct (Hkeep i nd) as (nd' & ? & ? & ? & ? & ?).
      { by rewrite list_lookup_insert_ne. }
      by exists nd'.
Qed.

Lemma chain_at_weaken m m' st :
  m ≤ m' → chain_at cfg m st → chain_at cfg m' st.
Proof.
  intros Hm [Hroot Hlink Hlast Hsize]. split; [done| |done..].
  intros i nd Hi Hlt.
  destruct (Hlink i nd Hi Hlt) as (a & nd' & ? & ? & ? & ? & ? & Hv).
  exists a, nd'. split_and!; [done..|].
  destruct Hv as [?|[? ?]]; [by left|right; split; [done|lia]].
Qed.

Lemma chain_visits_nonneg m st i nd :
  chain_at cfg m st → st !! i = Some nd → (0 ≤ visits nd)%Z.
Proof.
  intros Hch Hi. destruct i as [|j].
  - destruct (ch_root _ _ _ Hch) as (root & Hr & _ & Hv). congruence.
  - destruct (lookup_lt_is_Some_2 st j) as [ndj Hj].
    { apply lookup_lt_Some in Hi. lia. }
    destruct (ch_link _ _ _ Hch j ndj Hj) as (a & nd' & _ & _ & Hc & _ & _ & Hv).
    { by eapply lookup_lt_Some. }
    rewrite Hi in Hc. injection Hc as [= <-]. lia.
Qed.

(** In a chain the selection loop walks down the store: from node [k] it
    stops at a node [node'] further on, having appended the nodes in
    between to the path and counted them in [depth]. *)
Lemma select_loop_chain fuel st k path depth node' path' depth' :
  chain_inv cfg st → k < length st →
  select_loop cfg fuel st k path depth = Ok (node', path', depth') →
  k ≤ node' < length st ∧ path' = path ++ seq (S k) (node' - k) ∧
  depth' = (depth + Z.of_nat (node' - k))%Z.
Proof.
  intros Hch. revert k path depth.
  induction fuel as [|fuel IH]; intros k path depth Hk; simpl.
  - intros [= <- <- <-]. rewrite Nat.sub_diag. simpl.
    rewrite app_nil_r. split_and!; [lia..|done|lia].
  - unfold deref. destruct (st !! k) as [nd|] eqn:Hnd; simpl; [|done].
    destruct (negb (bool_decide (children nd = []))
              && negb (is_terminal (state nd))
              && (depth <? max_depth cfg)%Z) eqn:Hguard.
    + apply andb_prop in Hguard as [[Hne%negb_true_iff _]%andb_prop _].
      apply bool_decide_eq_false in Hne.
      assert (S k < length st) as HSk.
      { destruct (decide (S k = length st)) as [Heq|?]; [|lia].
        by rewrite (ch_last _ _ _ Hch k nd Hnd Heq) in Hne. }
      destruct (ch_link _ _ _ Hch k nd Hnd HSk) as (a & nd' & Hkids & _).
      destruct (select_uct cfg st nd) as [oa|e]; simpl; [|done].
      rewrite Hkids.
      destruct (oa ≫= λ a0, dict_get a0 [(a, S k)]) as [cid|] eqn:Hget;
        [|done].
      assert (cid = S k) as ->.
      { destruct oa as [a0|]; simpl in Hget; [|done].
        by destruct (decide (a0 = a)); simplify_eq. }
      intros (Hle & -> & ->)%IH; [|done].
      replace (node' - k) with (S (node' - S k)) by lia. simpl.
      rewrite <- app_assoc. simpl. split_and!; [lia..|done|lia].
    + intros [= <- <- <-]. rewrite Nat.sub_diag. simpl.
      rewrite app_nil_r. split_and!; [lia..|done|lia].
Qed.

(** Expansion at the node selection stopped at keeps the chain: a new
    node goes under the last node only, and becomes the last. *)
Lemma expand_chain st g node fr :
  chain_inv cfg st → node < length st →
  (∀ nd, st !! node = Some nd →
     negb (bool_decide (children nd = []))
     && negb (is_terminal (state nd))
     && (Z.of_nat node <? max_depth cfg)%Z = false) →
  expand cfg st g node (seq 0 (S node)) (Z.of_nat node) = Ok fr →
  ∃ m, fr_path fr = seq 0 m ∧ 1 ≤ m ≤ length (fr_store fr) ∧
       chain_at cfg m (fr_store fr) ∧
       length st ≤ length (fr_store fr) ≤ S (length st).
Proof.
  intros Hch Hnode Hguard [->|Hexp]%expand_inv.
  { exists (S node). simpl. split_and!; [done|lia..| |lia|lia].
    eapply chain_at_weaken; [|exact Hch]. lia. }
  destruct Hexp as (nd & a & next_s & Hnd & Hterm & Hd & Ha & _ &
                    Hstore & _ & Hpath & _).
  specialize (Hguard nd Hnd). rewrite Hterm in Hguard. simpl in Hguard.
  destruct (Z.ltb_spec (Z.of_nat node) (max_depth cfg)) as [_|?]; [|lia].
  rewrite !andb_true_r in Hguard. apply negb_false_iff in Hguard.
  apply bool_decide_eq_true in Hguard.
  assert (S node = length st) as Hlast.
  { destruct (decide (S node = length st)) as [?|?]; [done|].
    destruct (ch_link _ _ _ Hch node nd Hnd) as (? & ? & Hk & _); [lia|].
    by rewrite Hguard in Hk. }
  set (child := new_node next_s (Some (node, a))) in *.
  set (nd1 := set_child a (length st) nd) in *.
  assert (length (fr_store fr) = S (length st)) as Hlen.
  { rewrite Hstore, length_insert, length_app. simpl. lia. }
  assert (fr_store fr !! node = Some nd1) as Hnode1.
  { rewrite Hstore. apply list_lookup_insert_eq.
    rewrite length_app. simpl. lia. }
  assert (fr_store fr !! length st = Some child) as Hchild.
  { rewrite Hstore, list_lookup_insert_ne by lia.
    rewrite lookup_app_r, Nat.sub_diag by lia. done. }
  assert (∀ i, i < node → fr_store fr !! i = st !! i) as Hold.
  { intros i Hi. rewrite Hstore, list_lookup_insert_ne by lia.
    apply lookup_app_l. lia. }
  exists (S (length st)). split_and!; [|lia|lia| |lia|lia].
  { rewrite Hpath, <- Hlast. by rewrite (seq_S (S node) 0). }
  split.
  - destruct (ch_root _ _ _ Hch) as (root & Hr & Hp & Hv).
    destruct node as [|node'].
    + exists nd1. rewrite Hr in Hnd. injection Hnd as [= <-].
      by split_and!.
    + exists root. rewrite Hold by lia. by split_and!.
  - intros i ndi Hi Hlt. rewrite Hlen in Hlt.
    destruct (decide (i = node)) as [->|Hne].
    + rewrite Hnode1 in Hi. injection Hi as [= <-].
      exists a, child. rewrite Hlast. subst nd1. simpl. rewrite Hguard. simpl.
      split_and!; [done..| |].
      * by eapply chain_visits_nonneg.
      * right. split; [done|lia].
    + assert (i < node) as Hi' by lia. rewrite Hold in Hi by done.
      destruct (ch_link _ _ _ Hch i ndi Hi) as
        (b & nd' & ? & ? & Hc & ? & ? & Hv); [lia|].
      destruct (decide (S i = node)) as [Heq|?].
      * exists b, nd1. rewrite Heq, Hnode1. rewrite Heq, Hnd in Hc.
        injection Hc as [= <-]. rewrite <- Heq. subst nd1. simpl.
        split_and!; [done..|]. destruct Hv as [?|[? ?]]; [by left|lia].
      * exists b, nd'. rewrite Hold by lia.
        split_and!; [done..|]. destruct Hv as [?|[? ?]]; [by left|lia].
  - intros i ndi Hi HS. rewrite Hlen in HS.
    assert (i = length st) as -> by lia.
    rewrite Hchild in Hi. by injection Hi as [= <-].
  - rewrite Hlen. lia.
Qed.

(** Backpropagation over the first [m] nodes completes the chain. *)
Lemma backprop_chain st m v st' :
  chain_at cfg m st → 1 ≤ m ≤ length st →
  backprop st (seq 0 m) v = Ok st' →
  chain_inv cfg st' ∧ length st' = length st.
Proof.
  intros Hch Hm Hb.
  destruct (backprop_spec st (seq 0 m) v) as (st'' & Hb' & Hlen & Hst').
  { apply NoDup_seq. }
  { intros i Hi%elem_of_seq. lia. }
  rewrite Hb in Hb'. injection Hb' as [= <-]. split; [|done].
  assert (∀ i x, st' !! i = Some x ↔ ∃ nd,
    st !! i = Some nd ∧ x = if decide (i < m) then bump v nd else nd)
    as Hlook.
  { intros i x. rewrite Hst'. destruct (decide (i < m)) as [Hi|Hi].
    - rewrite decide_True by (apply elem_of_seq; lia).
      destruct (st !! i) as [nd|]; simpl; split.
      + intros [= <-]. by exists nd.
      + by intros (nd0 & [= <-] & ->).
      + done.
      + by intros (nd0 & [=] & _).
    - rewrite decide_False by (rewrite elem_of_seq; lia). split.
      + intros Hx. by exists x.
      + by intros (nd0 & -> & ->). }
  split.
  - destruct (ch_root _ _ _ Hch) as (root & Hr & Hp & Hv).
    exists (bump v root). split_and!; [|done|simpl; lia].
    apply Hlook. exists root. split; [done|]. by rewrite decide_True by lia.
  - intros i x Hi Hlt. rewrite Hlen in Hlt.
    apply Hlook in Hi as (nd & Hi & ->).
    destruct (ch_link _ _ _ Hch i nd Hi Hlt)
      as (a & nd' & Hk & Ha & Hc & Hp & Hle & Hv).
    exists a, (if decide (S i < m) then bump v nd' else nd').
    split_and!.
    + by destruct (decide (i < m)).
    + by destruct (decide (i < m)).
    + apply Hlook. by exists nd'.
    + by destruct (decide (S i < m)).
    + destruct (decide (S i < m)), (decide (i < m)); simpl; lia.
    + left. destruct (decide (S i < m)); simpl; lia.
  - intros i x Hi HS. rewrite Hlen in HS.
    apply Hlook in Hi as (nd & Hi & ->).
    pose proof (ch_last _ _ _ Hch i nd Hi HS).
    by destruct (decide (i < m)).
  - rewrite Hlen. apply (ch_size _ _ _ Hch).
Qed.

(** One iteration keeps the chain and adds at most one node. *)
Lemma iteration_chain st g st' g' :
  chain_inv cfg st → iteration cfg st g = Ok (st', g') →
  chain_inv cfg st' ∧ length st ≤ length st' ≤ S (length st).
Proof.
  intros Hch (node & path & depth & fr & nd & value &
              Hsel & Hexp & _ & _ & Hb)%iteration_inv.
  assert (0 < length st) as H0.
  { destruct (ch_root _ _ _ Hch) as (root & Hr & _). by eapply lookup_lt_Some. }
  assert (Z.to_nat (max_depth cfg - 0) ≤ Z.to_nat (max_depth cfg)) as Hfuel
    by lia.
  pose proof (select_loop_exit cfg _ st 0 [0] 0%Z node path depth
                Hfuel Hsel) as Hexit.
  apply (select_loop_chain _ st 0 [0] 0%Z) in Hsel
    as (Hnode & -> & ->); [|done..].
  rewrite Nat.sub_0_r in *. simpl in Hexp, Hexit.
  destruct (expand_chain st g node fr Hch) as (m & Hpath & Hm & Hch1 & Hlen);
    [lia|done|done|].
  rewrite Hpath in Hb.
  destruct (backprop_chain _ _ _ _ Hch1 Hm Hb) as [Hch' Hlen'].
  split; [done|lia].
Qed.

Lemma chain_initial (root_state : State) :
  chain_inv cfg [new_node (F := F) (Action := Action) root_state None].
Proof.
  split.
  - eexists. split_and!; [done..|simpl; lia].
  - intros i nd _ Hlt. simpl in Hlt. lia.
  - intros [|i] nd [= <-] _. done.
  - simpl. lia.
Qed.

Lemma reachable_chain root_state g0 st g :
  reachable cfg root_state g0 st g → chain_inv cfg st.
Proof.
  induction 1 as [|st g st' g' _ IH Hit]; [apply chain_initial|].
  by destruct (iteration_chain st g st' g' IH Hit).
Qed.

(** The tree that [search] ends with is one of the trees at the start of
    an iteration. *)
Lemma search_loop_reachable root_state g0 k st g st' g' :
  reachable cfg root_state g0 st g →
  search_loop cfg k st g = Ok (st', g') →
  reachable cfg root_state g0 st' g'.
Proof.
  revert st g. induction k as [|k IH]; intros st g Hr; simpl.
  - by intros [= <- <-].
  - destruct (iteration cfg st g) as [[st1 g1]|e] eqn:Hit; simpl; [|done].
    apply IH. by eapply reach_step.
Qed.

Lemma search_tree_reachable root_state g st g' :
  search_tree cfg root_state g = Ok (st, g') →
  reachable cfg root_state g st g'.
Proof. apply search_loop_reachable, reach_init. Qed.

Lemma search_loop_length k st g st' g' :
  chain_inv cfg st → search_loop cfg k st g = Ok (st', g') →
  length st ≤ length st' ≤ length st + k.
Proof.
  revert st g. induction k as [|k IH]; intros st g Hch; simpl.
  - intros [= <- <-]. lia.
  - destruct (iteration cfg st g) as [[st1 g1]|e] eqn:Hit; simpl; [|done].
    destruct (iteration_chain st g st1 g1 Hch Hit) as [Hch1 Hlen].
    intros Hk%IH; [lia|done].
Qed.

(** X1. The tree of [search] is a chain: at the start of every iteration
    (and when the rollouts are done) each node but the last has exactly one
    child, the node created right after it, and the last node has none.  So
    no node ever gets a second child. *)
Theorem tree_is_a_chain root_state g0 st g :
  reachable cfg root_state g0 st g →
  ∀ i nd, st !! i = Some nd →
    (S i < length st → ∃ a, children nd = [(a, S i)]) ∧
    (S i = length st → children nd = []) ∧
    length (children nd) ≤ 1.
Proof.
  intros Hch%reachable_chain i nd Hi.
  assert (S i < length st → ∃ a, children nd = [(a, S i)]) as Hlink.
  { intros Hlt. destruct (ch_link _ _ _ Hch i nd Hi Hlt) as (a & ? & ? & _).
    by exists a. }
  pose proof (ch_last _ _ _ Hch i nd Hi) as Hlast.
  split_and!; [done..|].
  apply lookup_lt_Some in Hi as Hlt.
  destruct (decide (S i = length st)) as [Heq|Hne].
  - rewrite (Hlast Heq). simpl. lia.
  - destruct Hlink as [a ->]; [lia|]. simpl. lia.
Qed.

(** X2. Parent edges and child dictionaries agree in the tree of
    [search]: the node found under action [a] in [node.children] has
    [parent = (node, a)], [a] is enumerable at the node's state, and a node
    with [parent = (node, a)] is the entry under [a] of [node.children].
    The root, and only the root, has no parent edge. *)
Theorem parent_edge_is_child_key root_state g0 st g :
  reachable cfg root_state g0 st g →
  (∀ i nd a cid, st !! i = Some nd → dict_get a (children nd) = Some cid →
     a ∈ actions (state nd) ∧
     ∃ c, st !! cid = Some c ∧ parent c = Some (i, a)) ∧
  (∀ j c i a, st !! j = Some c → parent c = Some (i, a) →
     ∃ nd, st !! i = Some nd ∧ dict_get a (children nd) = Some j) ∧
  (∀ j c, st !! j = Some c → parent c = None ↔ j = 0).
Proof.
  intros Hch%reachable_chain.
  assert (∀ j c, st !! S j = Some c → ∃ nd a,
    st !! j = Some nd ∧ children nd = [(a, S j)] ∧
    a ∈ actions (state nd) ∧ parent c = Some (j, a)) as Hup.
  { intros j c Hc. destruct (lookup_lt_is_Some_2 st j) as [nd Hnd].
    { apply lookup_lt_Some in Hc. lia. }
    destruct (ch_link _ _ _ Hch j nd Hnd) as (a & c' & ? & ? & Hc' & ? & _).
    { by eapply lookup_lt_Some. }
    rewrite Hc in Hc'. injection Hc' as [= <-]. by exists nd, a. }
  split_and!.
  - intros i nd a cid Hi Hget.
    destruct (decide (S i < length st)) as [Hlt|Hge].
    + destruct (ch_link _ _ _ Hch i nd Hi Hlt)
        as (b & c & Hk & ? & ? & ? & _).
      rewrite Hk in Hget. simpl in Hget.
      destruct (decide (a = b)) as [->|]; [|done].
      injection Hget as [= <-]. split; [done|]. by exists c.
    + rewrite (ch_last _ _ _ Hch i nd Hi) in Hget; [done|].
      apply lookup_lt_Some in Hi. lia.
  - intros [|j] c i a Hc Hp.
    + destruct (ch_root _ _ _ Hch) as (root & Hr & Hnone & _). congruence.
    + destruct (Hup j c Hc) as (nd & b & Hnd & Hk & _ & Hp').
      rewrite Hp in Hp'. injection Hp' as [= -> ->].
      exists nd. split; [done|]. rewrite Hk. simpl. by rewrite decide_True.
  - intros [|j] c Hc.
    + destruct (ch_root _ _ _ Hch) as (root & Hr & Hnone & _).
      split; [done|]. intros _. congruence.
    + destruct (Hup j c Hc) as (nd & b & _ & _ & _ & Hp').
      split; [congruence|done].
Qed.

(** X3. When the rollouts of [search] are done the tree has at least the
    root, at most one node per iteration besides it, and at most
    [max_depth + 1] nodes: no node lies deeper than [max_depth]. *)
Theorem search_tree_size root_state g st g' :
  search_tree cfg root_state g = Ok (st, g') →
  1 ≤ length st ≤ 1 + Z.to_nat (rollouts cfg) ∧
  (Z.of_nat (length st) ≤ Z.max 1 (max_depth cfg + 1))%Z.
Proof.
  intros Hs. split.
  - apply search_loop_length in Hs; [simpl in Hs; lia|apply chain_initial].
  - apply search_tree_reachable, reachable_chain in Hs.
    apply (ch_size _ _ _ Hs).
Qed.

(** X4. In the tree of [search] a child was visited at least once and at
    most as often as its parent, and no visit count is negative. *)
Theorem child_visits_within_parent root_state g0 st g :
  reachable cfg root_state g0 st g →
  (∀ i nd, st !! i = Some nd → (0 ≤ visits nd)%Z) ∧
  (∀ i nd a cid c,
     st !! i = Some nd → (a, cid) ∈ children nd → st !! cid = Some c →
     (1 ≤ visits c ≤ visits nd)%Z).
Proof.
  intros Hch%reachable_chain. split.
  - intros i nd Hi. by eapply chain_visits_nonneg.
  - intros i nd a cid c Hi Hin Hc.
    destruct (decide (S i < length st)) as [Hlt|Hge].
    + destruct (ch_link _ _ _ Hch i nd Hi Hlt)
        as (b & c' & Hk & _ & Hc' & _ & Hle & Hv).
      rewrite Hk in Hin. apply list_elem_of_singleton in Hin.
      injection Hin as [= -> ->]. rewrite Hc in Hc'. injection Hc' as [= <-].
      destruct Hv as [?|[_ ?]]; lia.
    + rewrite (ch_last _ _ _ Hch i nd Hi) in Hin.
      * by apply elem_of_nil in Hin.
      * apply lookup_lt_Some in Hi. lia.
Qed.

(** What an iteration leaves in place, from any store it returns on. *)
Lemma iteration_preserves st g st' g' :
  iteration cfg st g = Ok (st', g') →
  ∀ i nd, st !! i = Some nd → ∃ nd',
    st' !! i = Some nd' ∧ state nd' = state nd ∧ parent nd' = parent nd ∧
    (visits nd ≤ visits nd')%Z ∧
    (children nd' = children nd ∨
     children nd = [] ∧ ∃ a, children nd' = [(a, length st)]).
Proof.
  intros (node & path & depth & fr & ndf & value &
          Hsel & Hexp & _ & _ & Hb)%iteration_inv i nd Hi.
  apply backprop_inv in Hb as [_ Hkeep].
  assert (Z.to_nat (max_depth cfg - 0) ≤ Z.to_nat (max_depth cfg)) as Hfuel
    by lia.
  pose proof (select_loop_exit cfg _ st 0 [0] 0%Z node path depth
                Hfuel Hsel) as Hexit.
  apply expand_inv in Hexp as [->|Hexp].
  { destruct (Hkeep i nd Hi) as (nd' & ? & ? & ? & ? & ?).
    exists nd'. split_and!; [done..|]. by left. }
  destruct Hexp as (ndn & a & next_s & Hnode & Hterm & Hd & _ & _ &
                    Hstore & _).
  specialize (Hexit ndn Hnode). rewrite Hterm in Hexit. simpl in Hexit.
  destruct (Z.ltb_spec depth (max_depth cfg)) as [_|?]; [|lia].
  rewrite !andb_true_r in Hexit. apply negb_false_iff in Hexit.
  apply bool_decide_eq_true in Hexit.
  destruct (decide (i = node)) as [->|Hne].
  - rewrite Hnode in Hi. injection Hi as [= <-].
    destruct (Hkeep node (set_child a (length st) ndn))
      as (nd' & ? & ? & ? & Hk & ?).
    { rewrite Hstore. apply list_lookup_insert_eq.
      rewrite length_app. simpl. apply lookup_lt_Some in Hnode. lia. }
    exists nd'. split_and!; [done..|]. right. split; [done|].
    exists a. rewrite Hk. simpl. by rewrite Hexit.
  - destruct (Hkeep i nd) as (nd' & ? & ? & ? & ? & ?).
    { rewrite Hstore, list_lookup_insert_ne by done.
      apply lookup_app_l_Some, Hi. }
    exists nd'. split_and!; [done..|]. by left.
Qed.

(** X5. An iteration of [search] never changes the state or the parent
    edge of a node, never lowers a visit count, and changes the children of
    a node only from none to one: the new node, at the end of the store.
    This holds from any store the iteration returns on. *)
Theorem iteration_keeps_nodes st g st' g' :
  iteration cfg st g = Ok (st', g') →
  ∀ i nd, st !! i = Some nd → ∃ nd',
    st' !! i = Some nd' ∧ state nd' = state nd ∧ parent nd' = parent nd ∧
    (visits nd ≤ visits nd')%Z ∧
    (children nd' = children nd ∨
     children nd = [] ∧ ∃ a, children nd' = [(a, length st)]).
Proof. apply iteration_preserves. Qed.

Lemma search_loop_keeps_children k st g st' g' i nd :
  search_loop cfg k st g = Ok (st', g') →
  st !! i = Some nd → children nd ≠ [] →
  ∃ nd', st' !! i = Some nd' ∧ children nd' = children nd.
Proof.
  revert st g nd. induction k as [|k IH]; intros st g nd; simpl.
  - intros [= <- <-] Hi _. by exists nd.
  - destruct (iteration cfg st g) as [[st1 g1]|e] eqn:Hit; simpl; [|done].
    intros Hloop Hi Hne.
    destruct (iteration_preserves st g st1 g1 Hit i nd Hi)
      as (nd1 & Hi1 & _ & _ & _ & [Hk|[Hk _]]); [|done].
    destruct (IH st1 g1 nd1 Hloop Hi1) as (nd' & ? & ?); [congruence|].
    exists nd'. split; [done|congruence].
Qed.

(** What the loop of action extraction keeps: no child seen yet, or the
    most visited child seen, the first one among equals. *)
Lemma most_visited_best st items kids :
  Forall2 (λ (it : Action * nat) (k : Action * @Node State Action F),
             it.1 = k.1 ∧ st !! it.2 = Some k.2) items kids →
  Forall (λ k, (0 ≤ visits k.2)%Z) kids →
  ∀ seen ba bv,
    match ba with
    | None => seen = [] ∧ bv = (-1)%Z
    | Some a => ∃ i c, seen !! i = Some (a, c) ∧ bv = visits c ∧
        ∀ j a' c', seen !! j = Some (a', c') →
          (visits c' ≤ bv)%Z ∧ (j < i → (visits c' < bv)%Z)
    end →
    ∃ r, most_visited st items ba bv = Ok r ∧
      match r with
      | None => seen ++ kids = []
      | Some a => ∃ i c, (seen ++ kids) !! i = Some (a, c) ∧
          ∀ j a' c', (seen ++ kids) !! j = Some (a', c') →
            (visits c' ≤ visits c)%Z ∧ (j < i → (visits c' < visits c)%Z)
      end.
Proof.
  induction 1 as [|[a cid] [a' c] items kids [Ha Hc] _ IH];
    intros Hpos seen ba bv Hinv.
  - exists ba. split; [done|]. rewrite app_nil_r.
    destruct ba as [b|]; [|by destruct Hinv].
    destruct Hinv as (i & c & Hi & -> & Hbest). by exists i, c.
  - simpl in Ha, Hc. subst a'. apply Forall_cons in Hpos as [Hv Hpos].
    simpl in Hv. simpl. unfold deref. rewrite Hc. simpl.
    replace (seen ++ (a, c) :: kids) with ((seen ++ [(a, c)]) ++ kids)
      by (by rewrite <- app_assoc).
    destruct (Z.ltb_spec bv (visits c)) as [Hlt|Hge].
    + apply IH; [done|]. exists (length seen), c. split_and!.
      * by rewrite lookup_app_r, Nat.sub_diag by lia.
      * done.
      * intros j b cb Hj. destruct (decide (j < length seen)) as [Hj'|Hj'].
        -- rewrite lookup_app_l in Hj by done.
           destruct ba as [b0|]; [|destruct Hinv as [-> _]; done].
           destruct Hinv as (i & c0 & _ & -> & Hbest).
           destruct (Hbest j b cb Hj). lia.
        -- rewrite lookup_app_r in Hj by lia.
           destruct (j - length seen) as [|n] eqn:Hn; [|done].
           injection Hj as [= <- <-]. lia.
    + destruct ba as [b0|]; [|destruct Hinv as [_ ->]; lia].
      apply IH; [done|]. destruct Hinv as (i & c0 & Hi & -> & Hbest).
      exists i, c0. split_and!; [|done|].
      * rewrite lookup_app_l; [done|]. by eapply lookup_lt_Some.
      * intros j b cb Hj. destruct (decide (j < length seen)) as [Hj'|Hj'].
        -- rewrite lookup_app_l in Hj by done. by apply (Hbest j b).
        -- rewrite lookup_app_r in Hj by lia.
           destruct (j - length seen) as [|n] eqn:Hn; [|done].
           injection Hj as [= <- <-]. split; [lia|].
           apply lookup_lt_Some in Hi. lia.
Qed.

(** X6. Action extraction returns the action of the most visited child
    of the root, the first one in dictionary order among the most visited,
    whenever the root has a child (visit counts not negative). *)
Theorem extract_action_most_visited st root (root_state : State) :
  st !! 0 = Some root → children root ≠ [] →
  (∀ j, j < length (children root) → ∃ a c,
      child_at st root j = Some (a, c) ∧ (0 ≤ visits c)%Z) →
  ∃ i a c,
    child_at st root i = Some (a, c) ∧
    extract_action st root_state = Ok a ∧
    ∀ j a' c', child_at st root j = Some (a', c') →
      (visits c' ≤ visits c)%Z ∧ (j < i → (visits c' < visits c)%Z).
Proof.
  intros Hroot Hne Hall.
  set (res := λ it : Action * nat, (it.1, default root (st !! it.2))).
  assert (∀ j a c, (res <$> children root) !! j = Some (a, c) ↔
            child_at st root j = Some (a, c)) as Hres.
  { intros j a c. rewrite list_lookup_fmap, child_at_Some. split.
    - destruct (children root !! j) as [[a0 cid]|] eqn:Hj; [|done].
      unfold res. simpl. intros [= <- <-].
      destruct (Hall j) as (a1 & c1 & (cid1 & Hj1 & Hc1)%child_at_Some & _).
      { by eapply lookup_lt_Some. }
      rewrite Hj in Hj1. injection Hj1 as [= <- <-].
      exists cid. rewrite Hc1. done.
    - intros (cid & -> & Hc). unfold res. simpl. by rewrite Hc. }
  destruct (most_visited_best st (children root) (res <$> children root))
    with (seen := @nil (Action * @Node State Action F))
         (ba := @None Action) (bv := (-1)%Z) as (r & Hr & Hbest).
  - apply Forall2_same_length_lookup_2; [by rewrite length_fmap|].
    intros j [a0 cid] [a c] Hj Hj'.
    apply Hres, child_at_Some in Hj' as (cid' & Hj2 & Hc).
    rewrite Hj in Hj2. by injection Hj2 as [= <- <-].
  - apply Forall_lookup_2. intros j [a c] Hj. apply Hres in Hj.
    destruct (Hall j) as (a1 & c1 & Hc1 & Hv).
    { apply child_at_Some in Hj as (? & ? & ?). by eapply lookup_lt_Some. }
    rewrite Hj in Hc1. by injection Hc1 as [= <- <-].
  - done.
  - simpl in Hbest. destruct r as [a|].
    + destruct Hbest as (i & c & Hi & Hbest). exists i, a, c.
      split_and!.
      * by apply Hres.
      * unfold extract_action, deref. rewrite Hroot. simpl. by rewrite Hr.
      * intros j a' c' Hj. apply (Hbest j a'). by apply Hres.
    + by apply fmap_nil_inv in Hbest.
Qed.

Lemma rollout_rewards_length fuel s depth g rs g' :
  rollout_rewards cfg fuel s depth g = Ok (rs, g') → length rs ≤ fuel.
Proof.
  revert s depth g rs g'.
  induction fuel as [|fuel IH]; intros s depth g rs g'; simpl.
  - intros [= <- <-]. done.
  - destruct (is_terminal s || (max_depth cfg <=? depth)%Z);
      [intros [= <- <-]; simpl; lia|].
    destruct (actions s) as [|a0 acts]; [intros [= <- <-]; simpl; lia|].
    destruct (choice (a0 :: acts) g) as [[a g1]|e]; simpl; [|done].
    destruct (sample_next_state_and_reward s a g1) as [[next_s reward] g2].
    destruct (rollout_rewards cfg fuel next_s (depth + 1) g2)
      as [[rs1 g3]|e] eqn:Hrec; simpl; [|done].
    intros [= <- <-]. apply IH in Hrec. simpl. lia.
Qed.

(** X7. A rollout from depth [d] that returns has sampled at most
    [max_depth - d] transitions (none when [d >= max_depth]), and its value
    is the discounted total of their rewards. *)
Theorem rollout_within_depth s depth g v g' :
  rollout cfg s depth g = Ok (v, g') →
  ∃ rs,
    rollout_rewards cfg (Z.to_nat (max_depth cfg - depth)) s depth g
      = Ok (rs, g') ∧
    (Z.of_nat (length rs) ≤ Z.max 0 (max_depth cfg - depth))%Z ∧
    v = (foldl (accumulate cfg) (f_zero, f_one) rs).1.
Proof.
  unfold rollout. rewrite rollout_loop_rewards.
  destruct (rollout_rewards cfg _ s depth g) as [[rs g1]|e] eqn:Hrs;
    simpl; [|done].
  intros [= <- <-]. exists rs. split_and!; [done| |done].
  apply rollout_rewards_length in Hrs. lia.
Qed.


(** One iteration visits the root exactly once. *)
Lemma iteration_root_visit st g st' g' root :
  chain_inv cfg st → iteration cfg st g = Ok (st', g') →
  st !! 0 = Some root →
  ∃ root', st' !! 0 = Some root' ∧ visits root' = (visits root + 1)%Z.
Proof.
  intros Hch (node & path & depth & fr & nd & value &
              Hsel & Hexp & _ & _ & Hb)%iteration_inv Hroot.
  assert (0 < length st) as H0 by (by eapply lookup_lt_Some).
  assert (Z.to_nat (max_depth cfg - 0) ≤ Z.to_nat (max_depth cfg)) as Hfuel
    by lia.
  pose proof (select_loop_exit cfg _ st 0 [0] 0%Z node path depth
                Hfuel Hsel) as Hexit.
  apply (select_loop_chain _ st 0 [0] 0%Z) in Hsel
    as (Hnode & -> & ->); [|done..].
  rewrite Nat.sub_0_r in *. simpl in Hexp, Hexit.
  destruct (expand_chain st g node fr Hch) as (m & Hpath & Hm & _ & _);
    [lia|done|done|].
  assert (∃ r1, fr_store fr !! 0 = Some r1 ∧ visits r1 = visits root)
    as (r1 & Hr1 & Hv1).
  { apply expand_inv in Hexp as [->|Hexp]; [by exists root|].
    destruct Hexp as (ndn & a & next_s & Hn & _ & _ & _ & _ & -> & _).
    destruct (decide (node = 0)) as [->|Hne].
    - rewrite Hroot in Hn. injection Hn as [= <-].
      exists (set_child a (length st) root). split; [|done].
      apply list_lookup_insert_eq. rewrite length_app. simpl. lia.
    - exists root. split; [|done].
      rewrite list_lookup_insert_ne by done. by apply lookup_app_l_Some. }
  rewrite Hpath in Hb.
  destruct (backprop_spec (fr_store fr) (seq 0 m) value)
    as (st'' & Hb' & _ & Hst').
  { apply NoDup_seq. }
  { intros i Hi%elem_of_seq. lia. }
  rewrite Hb in Hb'. injection Hb' as [= <-].
  exists (bump value r1). split; [|simpl; lia].
  rewrite Hst', decide_True, Hr1; [done|]. apply elem_of_seq. lia.
Qed.

Lemma search_loop_root_visits k st g st' g' root :
  chain_inv cfg st → search_loop cfg k st g = Ok (st', g') →
  st !! 0 = Some root →
  ∃ root', st' !! 0 = Some root' ∧
           visits root' = (visits root + Z.of_nat k)%Z.
Proof.
  revert st g root. induction k as [|k IH]; intros st g root Hch; simpl.
  - intros [= <- <-] Hroot. exists root. split; [done|lia].
  - destruct (iteration cfg st g) as [[st1 g1]|e] eqn:Hit; simpl; [|done].
    intros Hloop Hroot.
    destruct (iteration_root_visit st g st1 g1 root Hch Hit Hroot)
      as (root1 & Hroot1 & Hv1).
    destruct (iteration_chain st g st1 g1 Hch Hit) as [Hch1 _].
    destruct (IH st1 g1 root1 Hch1 Hloop Hroot1) as (root' & Hroot' & Hv').
    exists root'. split; [done|lia].
Qed.

(** C2, amended. Whenever [search] completes its rollouts with a budget
    [rollouts = R], the root's visit count is max(0, R): exactly R for
    every R >= 0 (each iteration backpropagates through the root, once),
    and 0 for a negative R, which runs no iteration.  No assumption on the
    arithmetic, the rewards or the random source is needed, and the root
    state may be any. *)
Theorem search_root_visits (root_state : State) g st g' :
  search_tree cfg root_state g = Ok (st, g') →
  ∃ root,
    st !! 0 = Some root ∧
    visits root = Z.max 0 (rollouts cfg) ∧
    ((0 ≤ rollouts cfg)%Z → visits root = rollouts cfg).
Proof.
  intros Hs.
  destruct (search_loop_root_visits _ _ _ _ _ (new_node root_state None)
              (chain_initial root_state) Hs eq_refl) as (root & Hroot & Hv).
  exists root. simpl in Hv. split_and!; [done|lia|lia].
Qed.

Lemma reachable_root_state root_state g0 st g :
  reachable cfg root_state g0 st g →
  ∃ root, st !! 0 = Some root ∧ state root = root_state.
Proof.
  induction 1 as [|st g st' g' _ (root & Hroot & Hstate) Hit].
  - by eexists.
  - destruct (iteration_preserves st g st' g' Hit 0 root Hroot)
      as (root' & ? & ? & _).
    exists root'. split; [done|congruence].
Qed.

Lemma most_visited_key st items ba bv r :
  most_visited st items ba bv = Ok r →
  r = ba ∨ ∃ a, r = Some a ∧ a ∈ items.*1.
Proof.
  revert ba bv. induction items as [|[a cid] rest IH]; intros ba bv; simpl.
  - intros [= <-]. by left.
  - destruct (deref st cid) as [ch|e]; simpl; [|done].
    destruct (bv <? visits ch)%Z.
    + intros [->|(a' & -> & Hin)]%IH; right.
      * exists a. split; [done|]. apply list_elem_of_here.
      * exists a'. split; [done|]. by apply list_elem_of_further.
    + intros [->|(a' & -> & Hin)]%IH; [by left|right].
      exists a'. split; [done|]. by apply list_elem_of_further.
Qed.

(** An action that [search] returns is enumerable at the root state. *)
Lemma search_result_enumerated (root_state : State) g a g' :
  search cfg root_state g = Ok (a, g') → a ∈ actions root_state.
Proof.
  unfold search.
  destruct (search_tree cfg root_state g) as [[st g1]|e] eqn:Hs;
    simpl; [|done].
  destruct (extract_action st root_state) as [x|e] eqn:He; simpl; [|done].
  intros [= -> ->].
  apply search_tree_reachable in Hs.
  destruct (reachable_root_state _ _ _ _ Hs) as (root & Hroot & Hstate).
  apply reachable_chain in Hs.
  unfold extract_action, deref in He. rewrite Hroot in He. simpl in He.
  destruct (most_visited st (children root) None (-1)) as [r|e] eqn:Hm;
    simpl in He; [|done].
  apply most_visited_key in Hm as [->|(k & -> & Hin)].
  - destruct (actions root_state) as [|a0 acts]; [done|].
    injection He as [= <-]. apply list_elem_of_here.
  - injection He as [= ->].
    destruct (decide (S 0 < length st)) as [Hlt|Hge].
    + destruct (ch_link _ _ _ Hs 0 root Hroot Hlt)
        as (a1 & c1 & Hk & Ha1 & _).
      rewrite Hk in Hin. simpl in Hin.
      apply list_elem_of_singleton in Hin as ->. congruence.
    + rewrite (ch_last _ _ _ Hs 0 root Hroot) in Hin.
      * by apply elem_of_nil in Hin.
      * apply lookup_lt_Some in Hroot. lia.
Qed.

End shape_facts.

(** ** What search returns, and the driver *)

Section planner_facts.
Context {State Action F Rng : Type}.
Context `{!EqDecision Action, !PyFloat F, !MDP State Action,
          !RandomSource Rng, !Sampler State Action F Rng}.
Context `{!IdealFloat F, !RandomSourceOk Rng,
          !FiniteRewards State Action F Rng}.
Implicit Types (st : list (@Node State Action F)) (g : Rng).

Lemma filter_unexplored_nil (acts : list Action) :
  filter (λ a, dict_mem a (@nil (Action * nat)) = false) acts = acts.
Proof.
  induction acts as [|a acts IH]; [done|].
  rewrite filter_cons, decide_True by done. by rewrite IH.
Qed.

(** The first iteration at a root that can be expanded puts the action
    that [rng.choice] draws among all the actions of the root state under
    the root. *)
Lemma first_iteration cfg (root_state : State) g a g1 st1 g' :
  is_terminal root_state = false → (1 ≤ max_depth cfg)%Z →
  choice (actions root_state) g = Ok (a, g1) →
  iteration cfg [new_node root_state None] g = Ok (st1, g') →
  ∃ root, st1 !! 0 = Some root ∧ children root = [(a, 1)].
Proof.
  intros Hterm Hd Hc (node & path & depth & fr & nd & value &
                      Hsel & Hexp & _ & _ & Hb)%iteration_inv.
  rewrite (select_loop_leaf cfg _ _ (new_node root_state None)) in Hsel
    by done.
  injection Hsel as [= <- <- <-].
  unfold expand, deref in Hexp. simpl in Hexp. rewrite Hterm in Hexp.
  simpl in Hexp. destruct (Z.ltb_spec 0 (max_depth cfg)) as [_|?]; [|lia].
  destruct (actions root_state) as [|a0 acts] eqn:Hacts; [done|].
  rewrite filter_unexplored_nil, Hc in Hexp. simpl in Hexp.
  destruct (sample_next_state_and_reward root_state a g1)
    as [[next_s reward] g2].
  injection Hexp as [= <-]. simpl in Hb. injection Hb as [= <-].
  by eexists.
Qed.

Lemma search_Ok cfg (root_state : State) g :
  f_finite (gamma cfg) = true → f_finite (c_uct cfg) = true →
  actions root_state ≠ [] →
  ∃ a g', search cfg root_state g = Ok (a, g') ∧ a ∈ actions root_state.
Proof.
  intros Hg Hc Hacts. unfold search.
  destruct (search_tree_spec cfg Hg Hc root_state g)
    as (st & g' & root & -> & Hwf & Hroot & <- & _).
  simpl. destruct (extract_action_spec st root Hwf Hroot Hacts)
    as (a & -> & Ha).
  simpl. by exists a, g'.
Qed.

(** X9. At a non-terminal root state, with [max_depth >= 1] and at least
    one rollout, [search] returns the action that the first [rng.choice]
    draws among the actions of the root state: the root gets that one child
    in the first iteration and never another, so neither the rewards nor a
    larger budget change the action returned. *)
Theorem search_returns_first_draw cfg (root_state : State) g a g1 :
  f_finite (gamma cfg) = true → f_finite (c_uct cfg) = true →
  is_terminal root_state = false →
  (1 ≤ max_depth cfg)%Z → (1 ≤ rollouts cfg)%Z →
  choice (actions root_state) g = Ok (a, g1) →
  ∃ g', search cfg root_state g = Ok (a, g').
Proof.
  intros Hg Hc Hterm Hd HR Hdraw. unfold search.
  destruct (search_tree_spec cfg Hg Hc root_state g)
    as (st & g' & root & Hs & Hwf & Hroot & _ & _).
  rewrite Hs. simpl. exists g'.
  unfold search_tree in Hs.
  destruct (Z.to_nat (rollouts cfg)) as [|k] eqn:Hk; [lia|].
  simpl in Hs.
  destruct (iteration cfg [new_node root_state None] g)
    as [[st1 g2]|e] eqn:Hit; simpl in Hs; [|done].
  destruct (first_iteration cfg root_state g a g1 st1 g2 Hterm Hd Hdraw Hit)
    as (root1 & Hroot1 & Hk1).
  destruct (search_loop_keeps_children cfg k st1 g2 st g' 0 root1 Hs Hroot1)
    as (root' & Hroot' & Hk'); [by rewrite Hk1|].
  rewrite Hroot in Hroot'. injection Hroot' as [= <-].
  unfold extract_action, deref. rewrite Hroot. simpl. rewrite Hk', Hk1.
  simpl.
  destruct (inv_children _ _ Hwf 0 root a 1 Hroot) as [[_ Hlt] _].
  { rewrite Hk', Hk1. apply list_elem_of_here. }
  destruct (lookup_lt_is_Some_2 st 1 Hlt) as [ch Hch].
  unfold deref. rewrite Hch. simpl.
  destruct (inv_visits _ _ Hwf 1 ch Hch) as [Hv _].
  destruct (Z.ltb_spec (-1) (visits ch)) as [_|?]; [done|lia].
Qed.
End planner_facts.

(** ** The action that search returns *)

Section result_facts.
Context {State Action F Rng : Type}.
Context `{!EqDecision Action, !PyFloat F, !MDP State Action,
          !RandomSource Rng, !Sampler State Action F Rng}.
Variable cfg : @MCTSConfig F.

End result_facts.

(** ** The driver *)

Section driver_facts.
Context {State Action F Rng : Type}.
Context `{!EqDecision Action, !PyFloat F, !MDP State Action,
          !RandomSource Rng, !Sampler State Action F Rng,
          !InitialState State}.
Context `{!IdealFloat F, !RandomSourceOk Rng,
          !FiniteRewards State Action F Rng}.
(** The environment enumerates an action at every non-terminal state. *)
Hypothesis can_move : ∀ s : State, is_terminal s = false → actions s ≠ [].
Implicit Types (agent : @MCTS F Rng) (rng : Rng) (s : State).

Lemma MCTS_search_Ok agent s :
  f_finite (gamma (mcts_cfg agent)) = true →
  f_finite (c_uct (mcts_cfg agent)) = true →
  is_terminal s = false →
  ∃ a agent', MCTS_search agent s = Ok (a, agent') ∧
              mcts_cfg agent' = mcts_cfg agent ∧ a ∈ actions s.
Proof.
  intros Hg Hc Hterm. unfold MCTS_search.
  destruct (search_Ok (mcts_cfg agent) s (mcts_rng agent) Hg Hc)
    as (a & g' & -> & Ha); [by apply can_move|].
  simpl. by eexists _, _.
Qed.

Lemma episode_loop_spec fuel max_steps agent rng s steps total :
  f_finite (gamma (mcts_cfg agent)) = true →
  f_finite (c_uct (mcts_cfg agent)) = true →
  Z.to_nat (max_steps - steps) ≤ fuel →
  ∃ out,
    episode_loop fuel max_steps agent rng s steps total = Ok out ∧
    (steps ≤ out_steps out ≤ Z.max steps max_steps)%Z ∧
    (is_terminal (out_state out) = true ∨ (max_steps ≤ out_steps out)%Z) ∧
    mcts_cfg (out_agent out) = mcts_cfg agent.
Proof.
  revert agent rng s steps total.
  induction fuel as [|fuel IH]; intros agent rng s steps total Hg Hc Hfuel.
  - eexists. split; [done|]. simpl. split_and!; [lia..| |done]. right. lia.
  - simpl. destruct (is_terminal s) eqn:Hterm; simpl.
    { eexists. split; [done|]. simpl. split_and!; [lia..| |done]. by left. }
    destruct (Z.ltb_spec steps max_steps) as [Hlt|Hge].
    + destruct (MCTS_search_Ok agent s Hg Hc Hterm)
        as (a & agent' & -> & Hcfg & _).
      simpl. destruct (sample_next_state_and_reward s a rng)
        as [[next_s reward] rng'].
      destruct (IH agent' rng' next_s (steps + 1)%Z (f_add total reward))
        as (out & -> & Hsteps & Hexit & Hcfg'); [congruence..|lia|].
      exists out. split_and!; [done|lia|lia|done|congruence].
    + eexists. split; [done|]. simpl. split_and!; [lia..| |done]. by right.
Qed.

(** X10. Assume idealised float arithmetic, finite rewards, a random
    source that draws in range, finite gamma and c_uct, and an environment
    that enumerates an action at every non-terminal state.  Then an episode
    of [run_mcts] returns: [search] is only called at non-terminal states
    and raises at none of them.  The episode ends at a terminal state or
    with [steps] at [max_steps], never beyond, and the planner keeps its
    configuration. *)
Theorem episode_stops max_steps agent rng :
  f_finite (gamma (mcts_cfg agent)) = true →
  f_finite (c_uct (mcts_cfg agent)) = true →
  ∃ out,
    episode max_steps agent rng = Ok out ∧
    (0 ≤ out_steps out ≤ Z.max 0 max_steps)%Z ∧
    (is_terminal (out_state out) = true ∨ (max_steps ≤ out_steps out)%Z) ∧
    mcts_cfg (out_agent out) = mcts_cfg agent.
Proof.
  intros Hg Hc. apply episode_loop_spec; [done..|lia].
Qed.

Lemma episodes_spec n max_steps agent rng :
  f_finite (gamma (mcts_cfg agent)) = true →
  f_finite (c_uct (mcts_cfg agent)) = true →
  ∃ l, episodes n max_steps agent rng = Ok l ∧ length l = n ∧
       ∀ steps total, (steps, total) ∈ l →
         (0 ≤ steps ≤ Z.max 0 max_steps)%Z.
Proof.
  revert agent rng. induction n as [|n IH]; intros agent rng Hg Hc.
  - exists []. split_and!; [done..|]. by intros ?? ?%elem_of_nil.
  - simpl.
    destruct (episode_loop_spec (Z.to_nat max_steps) max_steps agent rng
                initial_state 0%Z f_zero Hg Hc)
      as (out & Hout & Hsteps & _ & Hcfg); [lia|].
    unfold episode. rewrite Hout. simpl.
    destruct (IH (out_agent out) (out_rng out)) as (l & -> & Hlen & Hl);
      [congruence..|].
    simpl. eexists. split; [done|]. simpl. split; [lia|].
    intros steps total [[= -> ->]|Hin]%elem_of_cons; [lia|].
    by eapply Hl.
Qed.

(** X11. Assume idealised float arithmetic, finite rewards, a random
    source that draws in range, finite gamma and c_uct, and an environment
    that enumerates an action at every non-terminal state.  Then
    [run_mcts] completes its 20 episodes without an exception, and each
    reported step count is between 0 and 1000. *)
Theorem run_mcts_reports (gamma0 c_uct0 : F) :
  f_finite gamma0 = true → f_finite c_uct0 = true →
  ∃ l, run_mcts gamma0 c_uct0 = Ok l ∧ length l = 20 ∧
       ∀ steps total, (steps, total) ∈ l → (0 ≤ steps ≤ 1000)%Z.
Proof.
  intros Hg Hc. unfold run_mcts.
  destruct (episodes_spec 20 1000
              (MCTS_init {| gamma := gamma0; c_uct := c_uct0;
                            rollouts := 200; max_depth := 200 |} None)
              (Random 0)) as (l & Hl & Hlen & Hsteps); [done..|].
  exists l. split_and!; [done..|]. intros steps total Hin.
  specialize (Hsteps steps total Hin). lia.
Qed.
End driver_facts.

(** ** The bandit without arms *)

Section bandit_errors.
Context {NpState : Type} `{!NumpyRandom NpState}.

(** X12. [select_arm] raises exactly when [n_arms <= 0] or
    [n_arms > 2^63], the bounds that [np.random.randint(0, n_arms)] with
    its int64 dtype refuses, and then ValueError; it raises nothing
    else. *)
Theorem select_arm_error (self : ExplorationOnly) (g : NpState) :
  (select_arm self g = Raise ValueError ↔
   (n_arms self ≤ 0)%Z ∨ (int64_max + 1 < n_arms self)%Z) ∧
  ∀ e, select_arm self g = Raise e → e = ValueError.
Proof.
  unfold select_arm, np_random_randint.
  destruct (Z.ltb_spec 0 int64_min) as [Hlow|_]; [by unfold int64_min in Hlow|].
  destruct (Z.ltb_spec (int64_max + 1) (n_arms self)) as [Hhigh|Hhigh]; simpl.
  { split; [|by intros e [= <-]]. split; [by right|done]. }
  destruct (Z.leb_spec (n_arms self) 0) as [Hle|Hgt].
  - split; [|by intros e [= <-]]. split; [by left|done].
  - destruct (np_bounded (n_arms self - 0) g) as [r g'].
    split; [|done]. split; [done|lia].
Qed.
End bandit_errors.

(** ** The small environment satisfies the assumptions *)

Import Toy.

#[export] Instance num_ideal : IdealFloat num.
Proof.
  split.
  - reflexivity.
  - reflexivity.
  - by intros [|a] [|b].
  - by intros [|a] [|b].
  - by intros [|a] n.
  - reflexivity.
  - by intros [|a].
  - intros N n HN Hn. simpl. apply Z.ltb_ge.
    apply Z.div_pos; [|lia]. pose proof (Z.log2_nonneg N). lia.
  - by intros [|a].
  - intros [|a] [|b]; simpl; try done. intros _ _ Hgt.
    apply Z.ltb_lt in Hgt. apply Z.ltb_ge. lia.
  - intros [|a] [|b] [|c]; simpl; try done. intros _ _ _ Hgt.
    apply Z.ltb_lt in Hgt. destruct (Z.ltb_spec c a); [by left|].
    right. apply Z.ltb_lt. lia.
Qed.

#[export] Instance lcg_ok : RandomSourceOk nat.
Proof.
  split. intros n g Hn. simpl. apply Nat.mod_upper_bound. lia.
Qed.

#[export] Instance walk_rewards : FiniteRewards nat bool num nat.
Proof. split. by intros s [|] g. Qed.

#[export] Instance counter_ok : NumpyRandomOk nat.
Proof.
  split. intros n g Hn. simpl. apply Z.mod_pos_bound. lia.
Qed.

Lemma cfg_gamma_finite : f_finite (gamma Toy.cfg) = true.
Proof. reflexivity. Qed.

Lemma cfg_c_uct_finite : f_finite (c_uct Toy.cfg) = true.
Proof. reflexivity. Qed.


Example search_depends_on_seed :
  search Toy.cfg 0 (Random 0) = Ok (true, 8) ∧
  search Toy.cfg 0 (Random 1) = Ok (false, 9).
Proof. split; reflexivity. Qed.

(** ** The statements at concrete inputs *)

Lemma rollout_rule_witness :
  rollout Toy.cfg 3 0%Z 9 = Ok (Fin 0, 9) ∧
  rollout_rewards Toy.cfg 5 0 0%Z 0 =
    ('(rs, g3) ← rollout_rewards Toy.cfg 4 1 1%Z 6;
     Ok (Fin 10000 :: rs, g3)).
Proof.
  split.
  - refine (proj2 (proj1 (proj2 (rollout_rule Toy.cfg 3 0%Z 9)) _)).
    left. reflexivity.
  - etrans.
    + refine (proj1 (proj2 (proj2 (rollout_rule Toy.cfg 0 0%Z 0))) _ _ _).
      * reflexivity.
      * simpl. lia.
      * done.
    + reflexivity.
Defined.

(** C6 as stated fails: state 3 is terminal, the environment still
    enumerates two actions there, and [search] returns the first. *)
Lemma terminal_root_with_actions_returns :
  is_terminal 3 = true ∧ search Toy.cfg 3 (Random 5) = Ok (true, 5).
Proof. split; reflexivity. Qed.

Lemma search_aborts_without_actions_witness :
  search (MDP0 := dead_end) Toy.cfg 0 0 = Raise RuntimeError ∧
  search Toy.cfg 4 9 = Ok (true, 9).
Proof.
  split.
  - by apply (proj1 (search_aborts_without_actions (MDP0 := dead_end)
                       Toy.cfg)).
  - by apply (proj2 (search_aborts_without_actions Toy.cfg) 4 9 true [false]).
Defined.

(** C7 as stated fails: a configuration with gamma = 2.0, c_uct = -1.0,
    rollouts = 0 and max_depth = 0 is constructed without an error, and
    [search] with it returns an action. *)
Lemma invalid_config_is_accepted :
  config_valid bad_cfg = false ∧
  construct (Fin 2000) (Fin (-1000)) 0 0 None = Ok (MCTS_init bad_cfg None) ∧
  MCTS_search (MCTS_init bad_cfg None) 0 = Ok (true, MCTS_init bad_cfg None).
Proof. split_and!; reflexivity. Qed.

Lemma construct_accepts_any_config_witness :
  construct (Fin 2000) (Fin (-1000)) 0 0 (Some 4) =
    Ok (MCTS_init bad_cfg (Some 4)) ∧
  MCTS_search (MCTS_init bad_cfg (Some 4)) 2 =
    Ok (true, MCTS_init bad_cfg (Some 4)).
Proof.
  split.
  - apply (proj1 construct_accepts_any_config).
  - etrans.
    + apply (proj2 construct_accepts_any_config
               (MCTS_init bad_cfg (Some 4)) 2).
      left. simpl. lia.
    + reflexivity.
Defined.

Lemma search_without_children_falls_back_witness :
  extract_action [dad; kid 1 0; kid 1 0] 7 = Ok true ∧
  extract_action [kid 3 0] 7 = Ok true ∧
  search bad_cfg 1 11 = Ok (true, 11).
Proof.
  split_and!.
  - reflexivity.
  - etrans.
    + by apply (proj1 (search_without_children_falls_back Toy.cfg)
                  [kid 3 0] (kid 3 0) 7).
    + reflexivity.
  - etrans.
    + apply (proj2 (search_without_children_falls_back bad_cfg) 1 11).
      left. simpl. lia.
    + reflexivity.
Defined.

Lemma select_arm_in_range_witness :
  ∃ i g', select_arm {| n_arms := 3 |} 7 = Ok (i, g') ∧ (0 ≤ i ≤ 3 - 1)%Z.
Proof.
  apply (select_arm_in_range {| n_arms := 3 |} 7). unfold int64_max. simpl.
  lia.
Defined.

(** C10 as stated fails: with n_arms = 2^63 + 1 the bound is out of the
    range of int64 and [select_arm] raises. *)
Lemma select_arm_beyond_int64_raises :
  (1 ≤ 9223372036854775809)%Z ∧
  select_arm {| n_arms := 9223372036854775809 |} 7 = Raise ValueError.
Proof. split; [lia|reflexivity]. Qed.

(** ** The shape of the tree and the driver at concrete inputs *)

Import Demo.

Lemma tree1_reachable : reachable Toy.cfg 0 0 tree1 14.
Proof. eapply reach_step; [apply reach_init|]. reflexivity. Qed.

Lemma walk_can_move : ∀ s : nat, is_terminal s = false → actions s ≠ [].
Proof. done. Qed.

Lemma tree_is_a_chain_witness :
  ∃ nd, tree1 !! 0 = Some nd ∧
    (∃ a, children nd = [(a, 1)]) ∧ length (children nd) ≤ 1.
Proof.
  eexists. split; [reflexivity|].
  destruct (tree_is_a_chain Toy.cfg 0 0 tree1 14 tree1_reachable 0 _ eq_refl)
    as (Hlink & _ & Hlen).
  split; [|exact Hlen]. apply Hlink. simpl. lia.
Defined.

Lemma parent_edge_is_child_key_witness :
  true ∈ actions 0 ∧ ∃ c, tree1 !! 1 = Some c ∧ parent c = Some (0, true).
Proof.
  exact (proj1 (parent_edge_is_child_key Toy.cfg 0 0 tree1 14
                  tree1_reachable)
           0 _ true 1 eq_refl eq_refl).
Defined.

Lemma search_tree_size_witness :
  ∃ st g', search_tree Toy.cfg 0 0 = Ok (st, g') ∧
    1 ≤ length st ≤ 1 + 6 ∧ (Z.of_nat (length st) ≤ 6)%Z.
Proof.
  destruct (search_tree Toy.cfg 0 0) as [[st g']|e] eqn:Hs.
  - exists st, g'. split; [reflexivity|].
    exact (search_tree_size Toy.cfg 0 0 st g' Hs).
  - vm_compute in Hs. discriminate Hs.
Defined.

Lemma child_visits_within_parent_witness :
  ∃ nd c, tree1 !! 0 = Some nd ∧ tree1 !! 1 = Some c ∧
    (1 ≤ visits c ≤ visits nd)%Z.
Proof.
  eexists _, _. split_and!; [reflexivity..|].
  apply (proj2 (child_visits_within_parent Toy.cfg 0 0 tree1 14
                  tree1_reachable) 0 _ true 1 _ eq_refl); [|reflexivity].
  apply list_elem_of_here.
Defined.

Lemma iteration_keeps_nodes_witness :
  ∃ nd', tree1 !! 0 = Some nd' ∧ state nd' = 0 ∧ parent nd' = None ∧
    (0 ≤ visits nd')%Z ∧
    (children nd' = [] ∨ @nil (bool * nat) = [] ∧
                         ∃ a, children nd' = [(a, 1)]).
Proof.
  exact (iteration_keeps_nodes Toy.cfg [new_node 0 None] 0 tree1 14 eq_refl
           0 (new_node 0 None) eq_refl).
Defined.

Lemma extract_action_most_visited_witness :
  ∃ i a c,
    child_at family dad i = Some (a, c) ∧
    extract_action family 9 = Ok a ∧
    ∀ j a' c', child_at family dad j = Some (a', c') →
      (visits c' ≤ visits c)%Z ∧ (j < i → (visits c' < visits c)%Z).
Proof.
  apply (extract_action_most_visited family dad 9 eq_refl); [done|].
  intros [|[|j]] Hj; simpl in Hj; [| |lia].
  - exists true, (kid 2 4000). split; [reflexivity|simpl; lia].
  - exists false, (kid 2 4000). split; [reflexivity|simpl; lia].
Defined.

Lemma rollout_within_depth_witness :
  ∃ rs,
    rollout_rewards Toy.cfg (Z.to_nat (max_depth Toy.cfg - 2)) 0 2%Z 0
      = Ok (rs, 14) ∧
    (Z.of_nat (length rs) ≤ Z.max 0 (max_depth Toy.cfg - 2))%Z ∧
    Fin 28520 = (foldl (accumulate Toy.cfg) (f_zero, f_one) rs).1.
Proof.
  exact (rollout_within_depth Toy.cfg 0 2%Z 0 (Fin 28520) 14 eq_refl).
Defined.


Lemma search_returns_first_draw_witness :
  ∃ g', search Toy.cfg 0 0 = Ok (true, g').
Proof.
  apply (search_returns_first_draw Toy.cfg 0 0 true 3
           cfg_gamma_finite cfg_c_uct_finite).
  - reflexivity.
  - simpl. lia.
  - simpl. lia.
  - reflexivity.
Defined.

Lemma episode_stops_witness :
  ∃ out,
    episode 3 (MCTS_init Toy.cfg None) (Random 0) = Ok out ∧
    (0 ≤ out_steps out ≤ Z.max 0 3)%Z ∧
    (is_terminal (out_state out) = true ∨ (3 ≤ out_steps out)%Z) ∧
    mcts_cfg (out_agent out) = Toy.cfg.
Proof.
  exact (episode_stops walk_can_move 3 (MCTS_init Toy.cfg None) (Random 0)
           cfg_gamma_finite cfg_c_uct_finite).
Defined.

Lemma run_mcts_reports_witness :
  ∃ l, run_mcts (Fin 950) (Fin 1400) = Ok l ∧ length l = 20 ∧
       ∀ steps total, (steps, total) ∈ l → (0 ≤ steps ≤ 1000)%Z.
Proof.
  exact (run_mcts_reports walk_can_move (Fin 950) (Fin 1400)
           eq_refl eq_refl).
Defined.

(** ** Selection, the root's visits and the result at concrete inputs *)

Lemma family_sqrt_defined st :
  st = family ∨ st = family_unvisited →
  ∀ j a c, child_at st dad j = Some (a, c) → (0 < visits c)%Z →
    f_gt f_zero (f_div (f_ln (visits dad)) (f_of_int (visits c))) = false.
Proof.
  intros [-> | ->] [|[|j]] a c; simpl; intros [= <- <-]; simpl;
    intros Hv; (reflexivity || lia).
Qed.



Lemma search_root_visits_witness :
  ∃ st g' root,
    search_tree Toy.cfg 0 0 = Ok (st, g') ∧ st !! 0 = Some root ∧
    visits root = 6%Z.
Proof.
  destruct (search_tree Toy.cfg 0 0) as [[st g']|e] eqn:Hs.
  - destruct (search_root_visits Toy.cfg 0 0 st g' Hs)
      as (root & Hroot & _ & Hv).
    exists st, g', root. split_and!; [reflexivity|exact Hroot|].
    apply Hv. simpl. lia.
  - vm_compute in Hs. discriminate Hs.
Defined.

Lemma negative_budget_leaves_root_unvisited :
  is_terminal 0 = false ∧ actions 0 = [true; false] ∧
  rollouts Edge.negative_budget = (-3)%Z ∧
  search Edge.negative_budget 0 0 = Ok (true, 0) ∧
  search_tree Edge.negative_budget 0 0 = Ok ([new_node 0 None], 0) ∧
  visits (new_node (F := num) (Action := bool) 0 None) = 0%Z.
Proof. split_and!; reflexivity. Qed.


